(** * TTC project page: the particle visualisation of the home page

    A shallow embedding of the particle subsystem of the landing page:
    the layout generator [createParticles], the per-frame functions
    [updateLines] and [animate], and the mode switcher [changeVizMode]
    with its description table [VIZ_DESCRIPTIONS].

    JavaScript numbers are kept abstract behind the class [JSNumber], so
    that every function is written once, the way the source writes it.
    The arithmetic that the engine runs, IEEE 754 binary64, is the
    instance [IEEE.number]; the functions that ECMAScript leaves to the
    engine (cosine, sine, arc cosine, exponential, power) are its
    parameters. *)

From Stdlib Require Import ZArith List Lia Bool String.
From Stdlib Require Import Floats.SpecFloat.
From stdpp Require Import base option list strings gmap.

Local Open Scope Z_scope.

(* ===================================================================== *)
(** * Numbers                                                             *)
(* ===================================================================== *)

(** The operations of the JavaScript number type that the page uses.
    [lit z] is an integer literal (or an integer loop index used as a
    number), [dec m k] the decimal literal [m / 10^k] (so [dec 8 2] is
    [0.08]), [nan] what arithmetic makes of [undefined], [fround] the
    rounding of a store into a [Float32Array]. *)
Class JSNumber (Num : Type) := {
  lit : Z → Num;
  dec : Z → nat → Num;
  nan : Num;
  add : Num → Num → Num;
  sub : Num → Num → Num;
  mul : Num → Num → Num;
  div : Num → Num → Num;
  fmod : Num → Num → Num;
  neg : Num → Num;
  ltb : Num → Num → bool;
  gtb : Num → Num → bool;
  eqb : Num → Num → bool;
  Math_PI : Num;
  Math_cos : Num → Num;
  Math_sin : Num → Num;
  Math_acos : Num → Num;
  Math_sqrt : Num → Num;
  Math_exp : Num → Num;
  Math_abs : Num → Num;
  Math_floor : Num → Num;
  Math_pow : Num → Num → Num;
  fround : Num → Num
}.

Declare Scope js_scope.
Delimit Scope js_scope with J.
Infix "+" := add : js_scope.
Infix "-" := sub : js_scope.
Infix "*" := mul : js_scope.
Infix "/" := div : js_scope.
Infix "mod" := fmod : js_scope.
Notation "- x" := (neg x) : js_scope.
Infix "<?" := ltb : js_scope.
Infix ">?" := gtb : js_scope.
Infix "=?" := eqb : js_scope.

(** The loop index [i] read as a number. *)
Definition idx `{JSNumber Num} (i : nat) : Num := lit (Z.of_nat i).

(** [a[i]] on an array of numbers: [undefined], hence [nan] in
    arithmetic, outside the array. *)
Definition get `{JSNumber Num} (a : list Num) (i : nat) : Num :=
  default nan (a !! i).

(** [a[i] = v] on a [Float32Array]: the value is rounded to single
    precision, and a store outside the array is dropped. *)
Definition set32 `{JSNumber Num} (a : list Num) (i : nat) (v : Num) : list Num :=
  <[i := fround v]> a.

(* ===================================================================== *)
(** * The description table and the modes                                 *)
(* ===================================================================== *)

Record Description := { title : string; text : string }.

Local Open Scope string_scope.

Definition VIZ_DESCRIPTIONS : gmap string Description :=
  <["graph" := {| title := "Network Theory";
      text := "You are seeing an Erdős–Rényi random graph. Particles represent nodes, and lines represent edges. The gentle float simulates the dynamic nature of social or data networks." |}]>
  (<["orbit" := {| title := "Orbital Mechanics";
      text := "Particles are arranged in concentric rings using polar coordinates (r, θ). This visualizes Keplerian orbits or electron shells in physics." |}]>
  (<["matrix" := {| title := "Linear Algebra";
      text := "A structured 3D lattice representing a Vector Space. The wave motion distorts the grid, visualizing a linear transformation or vector field manipulation." |}]>
  (<["threebody" := {| title := "The Three-Body Problem";
      text := "Three distinct gravitational clusters interact chaotically. While the system appears stable, small perturbations can lead to unpredictable trajectories." |}]>
  (<["lorenz" := {| title := "The Lorenz Attractor";
      text := "A visualization of the 'Butterfly Effect'. Points follow differential equations (dx/dt, dy/dt). They orbit two strange attractors, never repeating the same path twice." |}]>
  (<["neural" := {| title := "Multi-Layer Perceptron";
      text := "A visualization of Deep Learning. Particles form Input, Hidden, and Output layers. The passing 'Pulse' represents the Forward Pass of data tensors through the network." |}]>
  (<["quant" := {| title := "Monte Carlo Simulation";
      text := "Geometric Brownian Motion. Each particle trace represents a possible future price path of an asset, fanning out as time (and uncertainty/volatility) increases." |}]>
  (<["nash" := {| title := "Nash Equilibrium";
      text := "A Hyperbolic Paraboloid (Saddle Point). In Game Theory, this represents the Minimax solution where one player minimizes loss while the other maximizes gain." |}]>
  (<["golden" := {| title := "The Golden Ratio";
      text := "Phyllotaxis Optimization. Nature uses the ratio φ (1.618...) to pack seeds efficiently. Each particle is placed at 137.5° from the previous one." |}]>
  (<["topology" := {| title := "Topology";
      text := "The Klein Bottle. A non-orientable surface that has no distinct 'inside' or 'outside'. It demonstrates how space can be twisted and reconnected in higher dimensions." |}]>
  (<["calculus" := {| title := "Calculus & Motion";
      text := "Riemann Surface. A Helicoid surface representing multi-valued functions in complex analysis. It visualizes the geometry of smooth, continuous change." |}]>
  (<["series" := {| title := "Fourier Series";
      text := "Spherical Harmonics. Complex resonant states on a sphere. This shows how overlapping frequencies (Series) create intricate 3D interference patterns." |}]>
  ∅))))))))))).

(** The twelve mode identifiers, in the order of the fields of [targets]. *)
Definition modes : list string :=
  ["graph"; "orbit"; "matrix"; "threebody"; "neural"; "quant";
   "nash"; "lorenz"; "golden"; "topology"; "calculus"; "series"].

Local Close Scope string_scope.

(* ===================================================================== *)
(** * The layout generator                                                *)
(* ===================================================================== *)

Section Generator.
Context {Num : Type} `{JSNumber Num}.
Local Open Scope js_scope.

(** A [THREE.Color], as far as the page reads it. *)
Record Color := { r : Num; g : Num; b : Num }.

(** The object [targets]: one array of numbers per mode. *)
Record Targets := {
  graph : list Num; orbit : list Num; matrix : list Num;
  threebody : list Num; neural : list Num; quant : list Num;
  nash : list Num; lorenz : list Num; golden : list Num;
  topology : list Num; calculus : list Num; series : list Num
}.

(** [targets[mode]] for a mode given by name. *)
Definition target_of (t : Targets) (mode : string) : option (list Num) :=
  if String.eqb mode "graph" then Some (graph t)
  else if String.eqb mode "orbit" then Some (orbit t)
  else if String.eqb mode "matrix" then Some (matrix t)
  else if String.eqb mode "threebody" then Some (threebody t)
  else if String.eqb mode "neural" then Some (neural t)
  else if String.eqb mode "quant" then Some (quant t)
  else if String.eqb mode "nash" then Some (nash t)
  else if String.eqb mode "lorenz" then Some (lorenz t)
  else if String.eqb mode "golden" then Some (golden t)
  else if String.eqb mode "topology" then Some (topology t)
  else if String.eqb mode "calculus" then Some (calculus t)
  else if String.eqb mode "series" then Some (series t)
  else None.

Definition no_targets : Targets :=
  {| graph := []; orbit := []; matrix := []; threebody := [];
     neural := []; quant := []; nash := []; lorenz := []; golden := [];
     topology := []; calculus := []; series := [] |}.

(** [a.push(x, y, z)] *)
Definition push3 (a : list Num) (p : Num * Num * Num) : list Num :=
  let '(x, y, z) := p in a ++ [x; y; z].

(** What [createParticles] carries from one iteration to the next:
    the position in the stream of draws (the number of calls that the
    loop has made to [Math.random] so far), the running Lorenz point
    [(lx, ly, lz)], the two typed arrays and [targets]. *)
Record GenState := {
  calls : nat;
  lx : Num; ly : Num; lz : Num;
  positions : list Num;
  colors : list Num;
  targets : Targets
}.

(** [Math.random()] is the one impure call of the loop of the
    generator: [random k] is the value that the [k]-th call made by the
    loop returns.  The draws that the constructors of three.js make for
    themselves, before and after the loop, are not in this stream.
    [gold] and [white] are [configRef.current.color] and
    [configRef.current.white]. *)
Variable random : nat → Num.
Variables gold white : Color.

Definition sigma : Num := lit 10.
Definition rho : Num := lit 28.
Definition beta : Num := lit 8 / lit 3.
Definition dt : Num := dec 1 2.

(** One Euler step of the Lorenz system on [(lx, ly, lz)], for given
    constants; the loop takes it with the four constants above. *)
Definition lorenz_step_with (sigma rho beta dt : Num) (l : Num * Num * Num)
    : Num * Num * Num :=
  let '(lx, ly, lz) := l in
  let dx := sigma * (ly - lx) * dt in
  let dy := (lx * (rho - lz) - ly) * dt in
  let dz := (lx * ly - beta * lz) * dt in
  (lx + dx, ly + dy, lz + dz).

Definition lorenz_step : Num * Num * Num → Num * Num * Num :=
  lorenz_step_with sigma rho beta dt.

(** The point pushed on [targets.lorenz] for the running point:
    [(lx * 0.8, ly * 0.8, (lz - 25) * 0.8)]. *)
Definition lorenz_point_with (scale shift : Num) (l : Num * Num * Num)
    : Num * Num * Num :=
  let '(lx, ly, lz) := l in
  (lx * scale, ly * scale, (lz - shift) * scale).

Definition lorenz_point : Num * Num * Num → Num * Num * Num :=
  lorenz_point_with (dec 8 1) (lit 25).

(** The layouts that depend on the index only. *)
Definition matrix_point (i : nat) : Num * Num * Num :=
  let spacing := dec 35 1 in
  let mx := ((idx i mod lit 15) - lit 7) * spacing in
  let my := ((Math_floor (idx i / lit 15) mod lit 15) - lit 7) * spacing in
  let mz := (Math_floor (idx i / lit 225) - lit 2) * spacing in
  (mx, my, mz).

Definition golden_phi : Num := dec 1375 1 * (Math_PI / lit 180).
Definition golden_theta (i : nat) : Num := idx i * golden_phi.
Definition golden_radius (i : nat) : Num := dec 5 1 * Math_sqrt (idx i).

Definition golden_point (pCount i : nat) : Num * Num * Num :=
  let theta := golden_theta i in
  let radius := golden_radius i in
  (Math_cos theta * radius,
   (idx i / idx pCount) * lit 10 - lit 5,
   Math_sin theta * radius).

Definition topology_u (pCount i : nat) : Num :=
  (idx i / idx pCount) * Math_PI * lit 2.
Definition topology_v (i : nat) : Num :=
  (idx i mod lit 50) * (Math_PI * lit 2 / lit 50).

Definition topology_point (pCount i : nat) : Num * Num * Num :=
  let u := topology_u pCount i in
  let v := topology_v i in
  let r := lit 3 in
  let cosU := Math_cos u in let sinU := Math_sin u in
  let cosU2 := Math_cos (u / lit 2) in let sinU2 := Math_sin (u / lit 2) in
  let cosV := Math_cos v in let sinV := Math_sin v in
  let sin2V := Math_sin (lit 2 * v) in
  let kx := (r + cosU2 * sinV - sinU2 * sin2V) * cosU in
  let ky := (r + cosU2 * sinV - sinU2 * sin2V) * sinU in
  let kz := sinU2 * sinV + cosU2 * sin2V in
  (kx * lit 4, ky * lit 4, kz * lit 4).

Definition calculus_cU (pCount i : nat) : Num :=
  (idx i / idx pCount) * lit 10 - lit 5.
Definition calculus_cV (i : nat) : Num :=
  (idx i mod lit 50) * dec 2 1 * Math_PI.

Definition calculus_point (pCount i : nat) : Num * Num * Num :=
  let cU := calculus_cU pCount i in
  let cV := calculus_cV i in
  let hx := cU * Math_cos cV in
  let hy := cU * Math_sin cV in
  let hz := cV / lit 2 - lit 5 in
  (hx * lit 2, hy * lit 2, hz * lit 2).

(** The layouts that draw from [Math.random]; [c] is the number of
    calls that the loop made before the iteration, and the offsets
    follow the order in which the body of the loop evaluates its
    calls. *)
Definition graph_point (c : nat) : Num * Num * Num :=
  ((random c - dec 5 1) * lit 40,
   (random (c + 1) - dec 5 1) * lit 40,
   (random (c + 2) - dec 5 1) * lit 20).

Definition initial_color (c : nat) : Color :=
  let isGold := random (c + 3) >? dec 6 1 in
  if isGold then gold else white.

Definition orbit_point (c : nat) : Num * Num * Num :=
  let orbitAngle := random (c + 4) * Math_PI * lit 2 in
  let ring := Math_floor (random (c + 5) * lit 3) in
  let baseRad := lit 6 + ring * lit 5 in
  let ringRad := baseRad + (random (c + 6) - dec 5 1) * lit 2 in
  (Math_cos orbitAngle * ringRad,
   (random (c + 7) - dec 5 1) * lit 2,
   Math_sin orbitAngle * ringRad).

Definition threebody_point (c i : nat) : Num * Num * Num :=
  let clusterIdx := idx i mod lit 3 in
  let tAngle := random (c + 8) * Math_PI * lit 2 in
  let tRad := random (c + 9) * lit 4 in
  if clusterIdx =? lit 0 then
    (lit (-12) + Math_cos tAngle * tRad, Math_sin tAngle * tRad, lit 0)
  else if clusterIdx =? lit 1 then
    (lit 12 + Math_cos tAngle * tRad, Math_sin tAngle * tRad, lit 0)
  else
    (Math_cos tAngle * (tRad + lit 10),
     lit 12 + Math_sin tAngle * tRad,
     Math_sin tAngle * lit 5).

Definition neural_point (c i : nat) : Num * Num * Num :=
  let layer := idx i mod lit 5 in
  let layerX := (layer - lit 2) * lit 7 in
  let layerY := (random (c + 10) - dec 5 1) * lit 16 in
  let layerZ := (random (c + 11) - dec 5 1) * lit 16 in
  (layerX, layerY, layerZ).

Definition quantX (pCount i : nat) : Num :=
  (idx i / idx pCount) * lit 45 - lit 20.
Definition timeRatio (pCount i : nat) : Num :=
  (quantX pCount i + lit 20) / lit 45.
Definition volatility (pCount i : nat) : Num :=
  Math_pow (timeRatio pCount i) (dec 15 1) * lit 18.

Definition quant_point (pCount c i : nat) : Num * Num * Num :=
  let pathOffset := (random (c + 12) - dec 5 1) * volatility pCount i in
  (quantX pCount i,
   pathOffset + timeRatio pCount i * lit 8,
   (random (c + 13) - dec 5 1) * (volatility pCount i + lit 2)).

Definition nash_point (c : nat) : Num * Num * Num :=
  let saddleRange := lit 12 in
  let sx := (random (c + 14) - dec 5 1) * lit 2 * saddleRange in
  let sz := (random (c + 15) - dec 5 1) * lit 2 * saddleRange in
  let sy := (sx * sx - sz * sz) * dec 8 2 in
  (sx, sy, sz).

Definition series_point (c : nat) : Num * Num * Num :=
  let sTheta := random (c + 16) * Math_PI * lit 2 in
  let sPhi := Math_acos (lit 2 * random (c + 17) - lit 1) in
  let sR := lit 10 + lit 5 * Math_sin (lit 6 * sTheta) * Math_cos (lit 5 * sPhi) in
  (sR * Math_sin sPhi * Math_cos sTheta,
   sR * Math_sin sPhi * Math_sin sTheta,
   sR * Math_cos sPhi).

(** The body of the loop of [createParticles], for index [i]. *)
Definition particle (pCount i : nat) (st : GenState) : GenState :=
  let c := calls st in
  let '(x, y, z) := graph_point c in
  let positions := set32 (positions st) (i * 3) x in
  let positions := set32 positions (i * 3 + 1) y in
  let positions := set32 positions (i * 3 + 2) z in
  let color := initial_color c in
  let colors := set32 (colors st) (i * 3) (r color) in
  let colors := set32 colors (i * 3 + 1) (g color) in
  let colors := set32 colors (i * 3 + 2) (b color) in
  let l := lorenz_step (lx st, ly st, lz st) in
  let t := targets st in
  {| calls := c + 18;
     lx := l.1.1; ly := l.1.2; lz := l.2;
     positions := positions;
     colors := colors;
     targets :=
       {| graph := push3 (graph t) (x, y, z);
          orbit := push3 (orbit t) (orbit_point c);
          matrix := push3 (matrix t) (matrix_point i);
          threebody := push3 (threebody t) (threebody_point c i);
          neural := push3 (neural t) (neural_point c i);
          quant := push3 (quant t) (quant_point pCount c i);
          nash := push3 (nash t) (nash_point c);
          lorenz := push3 (lorenz t) (lorenz_point l);
          golden := push3 (golden t) (golden_point pCount i);
          topology := push3 (topology t) (topology_point pCount i);
          calculus := push3 (calculus t) (calculus_point pCount i);
          series := push3 (series t) (series_point c) |} |}.

(** The state at the entry of the loop: two zero-filled typed arrays of
    [pCount * 3] entries, the Lorenz point [(0.1, 0, 0)], empty
    [targets], and the stream of draws at position [c0] ([c0 = 0] in
    [createParticles]: the stream starts with the first draw of the
    loop). *)
Definition gen_init (pCount c0 : nat) : GenState :=
  {| calls := c0;
     lx := dec 1 1; ly := lit 0; lz := lit 0;
     positions := replicate (pCount * 3) (lit 0);
     colors := replicate (pCount * 3) (lit 0);
     targets := no_targets |}.

(** The state after the first [n] iterations of the loop. *)
Definition iterations (pCount c0 n : nat) : GenState :=
  fold_left (λ st i, particle pCount i st) (seq 0 n) (gen_init pCount c0).

(** [for (let i = 0; i < pCount; i++) { ... }] *)
Definition createParticles_from (pCount c0 : nat) : GenState :=
  iterations pCount c0 pCount.

Definition createParticles (pCount : nat) : GenState :=
  createParticles_from pCount 0.

(** ** The tables in closed form *)

Definition triple (p : Num * Num * Num) : list Num :=
  let '(x, y, z) := p in [x; y; z].

(** The array that receives [f 0], [f 1], ..., [f (n - 1)] in turn. *)
Definition table (f : nat → Num * Num * Num) (n : nat) : list Num :=
  flat_map (λ i, triple (f i)) (seq 0 n).

(** The [n] points that follow [l] on a trajectory, as pushed. *)
Fixpoint trajectory (step point : Num * Num * Num → Num * Num * Num)
    (l : Num * Num * Num) (n : nat) : list Num :=
  match n with
  | O => []
  | S n' => let l' := step l in triple (point l') ++ trajectory step point l' n'
  end.

Definition lorenz_from (l : Num * Num * Num) (n : nat) : list Num :=
  trajectory lorenz_step lorenz_point l n.

(** The running Lorenz point after [n] steps. *)
Definition lorenz_state (n : nat) : Num * Num * Num :=
  Nat.iter n lorenz_step (dec 1 1, lit 0, lit 0).

(** The value of [targets] after [n] iterations, when the stream of
    draws is at position [c0] at the entry of the loop. *)
Definition tables (pCount c0 n : nat) : Targets :=
  {| graph := table (λ i, graph_point (c0 + 18 * i)) n;
     orbit := table (λ i, orbit_point (c0 + 18 * i)) n;
     matrix := table matrix_point n;
     threebody := table (λ i, threebody_point (c0 + 18 * i) i) n;
     neural := table (λ i, neural_point (c0 + 18 * i) i) n;
     quant := table (λ i, quant_point pCount (c0 + 18 * i) i) n;
     nash := table (λ i, nash_point (c0 + 18 * i)) n;
     lorenz := table (λ i, lorenz_point (lorenz_state (S i))) n;
     golden := table (golden_point pCount) n;
     topology := table (topology_point pCount) n;
     calculus := table (calculus_point pCount) n;
     series := table (λ i, series_point (c0 + 18 * i)) n |}.

End Generator.

Arguments Color Num : clear implicits.
Arguments Targets Num : clear implicits.
Arguments GenState Num : clear implicits.

(* ===================================================================== *)
(** * The render loop                                                     *)
(* ===================================================================== *)

Section RenderLoop.
Context {Num : Type} `{JSNumber Num}.
Local Open Scope string_scope.
Local Open Scope js_scope.

(** What a frame reads and writes: the two typed arrays of the particle
    geometry, the camera position, the Euler angles of the two meshes,
    and the line mesh (its visibility flag and its position attribute).
    The orientation that [camera.lookAt] derives from the position and
    the image that [renderer.render] draws are not part of the state. *)
Record Scene := {
  position_array : list Num;
  color_array : list Num;
  color_needsUpdate : bool;
  position_needsUpdate : bool;
  camera_position : Num * Num * Num;
  particles_rotation : Num * Num * Num;
  lines_rotation : Num * Num * Num;
  lines_visible : bool;
  lines_position : list Num
}.

(** What a frame only reads: [Date.now()], the pointer, and the values
    fixed at mount ([isMobile], [configRef.current.particleCount] and
    the generated [targets]). *)
Record FrameInput := {
  now : Num;
  mouse : Num * Num;
  isMobile : bool;
  particleCount : nat;
  frame_targets : Targets Num
}.

(** ** [updateLines] *)

(** The guard at the head of [updateLines]. *)
Definition lines_hidden (mode : string) : bool :=
  String.eqb mode "lorenz" || String.eqb mode "quant" || String.eqb mode "series"
  || String.eqb mode "topology" || String.eqb mode "calculus".

Definition threshold (mode : string) : Num :=
  let threshold := lit 12 in
  let threshold := if String.eqb mode "neural" then lit 30 else threshold in
  let threshold := if String.eqb mode "nash" then lit 8 else threshold in
  let threshold := if String.eqb mode "matrix" then lit 14 else threshold in
  threshold.

Definition distSq (positions : list Num) (i j : nat) : Num :=
  let dx := get positions (i * 3) - get positions (j * 3) in
  let dy := get positions (i * 3 + 1) - get positions (j * 3 + 1) in
  let dz := get positions (i * 3 + 2) - get positions (j * 3 + 2) in
  dx * dx + dy * dy + dz * dz.

(** The six numbers pushed for the pair [(i, j)]. *)
Definition segment (positions : list Num) (i j : nat) : list Num :=
  [get positions (i * 3); get positions (i * 3 + 1); get positions (i * 3 + 2);
   get positions (j * 3); get positions (j * 3 + 1); get positions (j * 3 + 2)].

(** The body of the inner loop. *)
Definition check_pair (mode : string) (positions : list Num) (i j : nat)
    (linePositions : list Num) : list Num :=
  if distSq positions i j <? threshold mode
  then linePositions ++ segment positions i j
  else linePositions.

(** [for (let j = ...; j < Math.min(i + checkLimit, limit); j++)], from
    the current [j]; [fuel] bounds the number of iterations. *)
Fixpoint scan_j (fuel : nat) (mode : string) (positions : list Num)
    (checkLimit limit i j : nat) (linePositions : list Num) : list Num :=
  match fuel with
  | O => linePositions
  | S fuel' =>
      if (j <? Nat.min (i + checkLimit) limit)%nat
      then scan_j fuel' mode positions checkLimit limit i (j + 1)
             (check_pair mode positions i j linePositions)
      else linePositions
  end.

(** [for (let i = ...; i < limit; i += step)], from the current [i]. *)
Fixpoint scan_i (fuel : nat) (mode : string) (positions : list Num)
    (checkLimit limit step i : nat) (linePositions : list Num) : list Num :=
  match fuel with
  | O => linePositions
  | S fuel' =>
      if (i <? limit)%nat
      then scan_i fuel' mode positions checkLimit limit step (i + step)
             (scan_j checkLimit mode positions checkLimit limit i (i + 1) linePositions)
      else linePositions
  end.

Definition checkLimit_of (isMobile : bool) : nat := if isMobile then 15%nat else 40%nat.
Definition step_of (isMobile : bool) : nat := if isMobile then 3%nat else 2%nat.

(** The array [linePositions] that [updateLines] builds when the lines
    are shown.  Both loops get as much fuel as they can use: the outer
    index grows by at least 2 up to [limit], the inner one runs over
    fewer than [checkLimit] indices. *)
Definition linePositions_of (mode : string) (isMobile : bool) (limit : nat)
    (positions : list Num) : list Num :=
  scan_i limit mode positions (checkLimit_of isMobile) limit (step_of isMobile) 0 [].

(** The index pairs that the two loops visit, in the order of the scan,
    and what the body of the inner loop pushes for one of them. *)
Definition scanned_pairs (step checkLimit limit : nat) : list (nat * nat) :=
  flat_map
    (λ i, map (λ j, (i, j)) (seq (i + 1) (Nat.min (i + checkLimit) limit - (i + 1))))
    (filter (λ i, i mod step = 0)%nat (seq 0 limit)).

Definition emitted (mode : string) (positions : list Num) (p : nat * nat) : list Num :=
  if distSq positions p.1 p.2 <? threshold mode
  then segment positions p.1 p.2
  else [].

Definition updateLines (mode : string) (inp : FrameInput) (sc : Scene) : Scene :=
  if lines_hidden mode then
    {| position_array := position_array sc; color_array := color_array sc;
       color_needsUpdate := color_needsUpdate sc;
       position_needsUpdate := position_needsUpdate sc;
       camera_position := camera_position sc;
       particles_rotation := particles_rotation sc;
       lines_rotation := lines_rotation sc;
       lines_visible := false;
       lines_position := lines_position sc |}
  else
    {| position_array := position_array sc; color_array := color_array sc;
       color_needsUpdate := color_needsUpdate sc;
       position_needsUpdate := position_needsUpdate sc;
       camera_position := camera_position sc;
       particles_rotation := particles_rotation sc;
       lines_rotation := lines_rotation sc;
       lines_visible := true;
       lines_position :=
         map fround (linePositions_of mode (isMobile inp) (particleCount inp)
                       (position_array sc)) |}.

(** ** [animate] *)

Definition yaw_modes (mode : string) : bool :=
  String.eqb mode "lorenz" || String.eqb mode "nash" || String.eqb mode "orbit".

(** The body of the loop of the neural pulse, for particle [i]. *)
Definition glow (wavePos : Num) (positions : list Num) (i : nat) : Num :=
  let i3 := (i * 3)%nat in
  let x := get positions i3 in
  let dist := Math_abs (x - wavePos) in
  Math_exp (- (dist * dist) / lit 10).

Definition pulse (wavePos : Num) (positions : list Num) (colors : list Num) (i : nat)
    : list Num :=
  let i3 := (i * 3)%nat in
  let glow := glow wavePos positions i in
  let colors := set32 colors i3 (dec 83 2 + dec 17 2 * glow) in
  let colors := set32 colors (i3 + 1) (dec 68 2 + dec 32 2 * glow) in
  set32 colors (i3 + 2) (dec 21 2 + dec 79 2 * glow).

Definition wavePos (time : Num) : Num :=
  let waveSpeed := lit 4 in
  ((time * waveSpeed) mod lit 40) - lit 20.

Definition neural_pulse (time : Num) (count : nat) (positions colors : list Num)
    : list Num :=
  let wavePos := wavePos time in
  fold_left (λ colors i, pulse wavePos positions colors i) (seq 0 count) colors.

(** The rotation of the particles and of the line mesh after the reset
    and the chain of cases on the mode.  (The block that sets the yaw
    before the neural pulse is overwritten by the reset.) *)
Definition rotations (mode : string) (time : Num)
    : (Num * Num * Num) * (Num * Num * Num) :=
  let zero := (lit 0, lit 0, lit 0) in
  if yaw_modes mode then
    ((lit 0, time * dec 1 1, lit 0), (lit 0, time * dec 1 1, lit 0))
  else if String.eqb mode "topology" then
    ((time * dec 1 1, time * dec 1 1, lit 0), zero)
  else if String.eqb mode "calculus" then
    ((lit 0, lit 0, time * dec 1 1), zero)
  else if String.eqb mode "series" then
    ((lit 0, time * dec 2 1, lit 0), zero)
  else if String.eqb mode "limitless" then
    ((time * dec 5 2, time * dec 5 2, lit 0), zero)
  else (zero, zero).

(** The target [(tx, ty, tz)] of particle [i] in the movement loop. *)
Definition target (mode : string) (t : Targets Num) (time : Num) (i : nat)
    : Num * Num * Num :=
  let i3 := (i * 3)%nat in
  if String.eqb mode "graph" then
    (get (graph t) i3, get (graph t) (i3 + 1), get (graph t) (i3 + 2))
  else if String.eqb mode "orbit" then
    (get (orbit t) i3,
     get (orbit t) (i3 + 1) + Math_sin (time * lit 2 + idx i) * dec 15 1,
     get (orbit t) (i3 + 2))
  else if String.eqb mode "matrix" then
    let tx := get (matrix t) i3 in
    (tx, get (matrix t) (i3 + 1) + Math_sin (time + tx * dec 3 1) * lit 2,
     get (matrix t) (i3 + 2))
  else if String.eqb mode "threebody" then
    (get (threebody t) i3 + Math_sin (time * lit 2 + idx i) * lit 2,
     get (threebody t) (i3 + 1) + Math_cos (time * dec 15 1 + idx i) * lit 2,
     get (threebody t) (i3 + 2) + Math_sin (time + idx i) * lit 2)
  else if String.eqb mode "neural" then
    (get (neural t) i3, get (neural t) (i3 + 1), get (neural t) (i3 + 2))
  else if String.eqb mode "quant" then
    let tx := get (quant t) i3 in
    (tx, get (quant t) (i3 + 1) + Math_sin (time * lit 2 + tx * dec 1 1) * lit 2,
     get (quant t) (i3 + 2))
  else if String.eqb mode "nash" then
    (get (nash t) i3, get (nash t) (i3 + 1), get (nash t) (i3 + 2))
  else if String.eqb mode "lorenz" then
    (get (lorenz t) i3, get (lorenz t) (i3 + 1), get (lorenz t) (i3 + 2))
  else if String.eqb mode "golden" then
    (get (golden t) i3, get (golden t) (i3 + 1), get (golden t) (i3 + 2))
  else if String.eqb mode "topology" then
    (get (topology t) i3, get (topology t) (i3 + 1), get (topology t) (i3 + 2))
  else if String.eqb mode "calculus" then
    (get (calculus t) i3, get (calculus t) (i3 + 1), get (calculus t) (i3 + 2))
  else if String.eqb mode "series" then
    (get (series t) i3, get (series t) (i3 + 1), get (series t) (i3 + 2))
  else (lit 0, lit 0, lit 0).

(** [p += (t - p) * 0.04] *)
Definition ease (p t : Num) : Num := p + (t - p) * dec 4 2.

(** The body of the movement loop, for particle [i]. *)
Definition move (mode : string) (t : Targets Num) (time : Num) (positions : list Num)
    (i : nat) : list Num :=
  let i3 := (i * 3)%nat in
  let '(tx, ty, tz) := target mode t time i in
  let positions := set32 positions i3 (ease (get positions i3) tx) in
  let positions := set32 positions (i3 + 1) (ease (get positions (i3 + 1)) ty) in
  set32 positions (i3 + 2) (ease (get positions (i3 + 2)) tz).

Definition movement (mode : string) (t : Targets Num) (time : Num) (count : nat)
    (positions : list Num) : list Num :=
  fold_left (move mode t time) (seq 0 count) positions.

(** One call of [animate] with [configRef.current.mode = mode], up to
    the request for the next frame and the draw call. *)
Definition animate (mode : string) (inp : FrameInput) (sc : Scene) : Scene :=
  let positions := position_array sc in
  let colors := color_array sc in
  let time := now inp * dec 1 3 in
  let '(cx, cy, cz) := camera_position sc in
  let cx := cx + (fst (mouse inp) * lit 3 - cx) * dec 5 2 in
  let cy := cy + (snd (mouse inp) * lit 3 + lit 10 - cy) * dec 5 2 in
  let colors' :=
    if String.eqb mode "neural"
    then neural_pulse time (particleCount inp) positions colors
    else colors in
  let colorFlag :=
    if String.eqb mode "neural" then true else color_needsUpdate sc in
  let '(prot, lrot) := rotations mode time in
  let positions' := movement mode (frame_targets inp) time (particleCount inp) positions in
  updateLines mode inp
    {| position_array := positions'; color_array := colors';
       color_needsUpdate := colorFlag;
       position_needsUpdate := true;
       camera_position := (cx, cy, cz);
       particles_rotation := prot;
       lines_rotation := lrot;
       lines_visible := lines_visible sc;
       lines_position := lines_position sc |}.

End RenderLoop.

(* ===================================================================== *)
(** * The mode switcher                                                   *)
(* ===================================================================== *)

Module Switcher.
Local Open Scope string_scope.
Local Open Scope N_scope.

(** The property names that an object literal inherits from
    [Object.prototype] (ECMAScript, with its annex for browsers). *)
Definition Object_prototype : list string :=
  ["constructor"; "hasOwnProperty"; "isPrototypeOf"; "propertyIsEnumerable";
   "toLocaleString"; "toString"; "valueOf"; "__proto__"; "__defineGetter__";
   "__defineSetter__"; "__lookupGetter__"; "__lookupSetter__"].

(** What the property access [VIZ_DESCRIPTIONS[key]] evaluates to: the
    description stored under an own key; for a name that the object
    only inherits, the member of [Object.prototype] of that name; and
    [undefined] for any other string. *)
Inductive Member :=
  | own (d : Description)
  | inherited (key : string)
  | undefined.

Definition get_member (o : gmap string Description) (key : string) : Member :=
  match o !! key with
  | Some d => own d
  | None => if existsb (String.eqb key) Object_prototype then inherited key
            else undefined
  end.

(** The component state that [changeVizMode] touches: the three React
    state variables, [configRef.current.mode], and the callbacks that
    [changeVizMode] has handed to [setTimeout] and that have not run
    yet, each with the time at which it is due and the mode it captured.
    [clock] is the time in milliseconds.  [insight] is the value last
    handed to the state variable, by [useState] or by [setInsight]: for
    a description or [undefined] that is what the variable holds; what
    React makes of an inherited member (it calls a function handed to a
    setter) is not modelled. *)
Record Page := {
  vizMode : string;
  insight : Member;
  isUpdatingInsight : bool;
  config_mode : string;
  clock : N;
  pending : list (N * string)
}.

(** The state after the first render. *)
Definition mount : Page :=
  {| vizMode := "graph";
     insight := get_member VIZ_DESCRIPTIONS "graph";
     isUpdatingInsight := false;
     config_mode := "graph";
     clock := 0;
     pending := [] |}.

Definition changeVizMode (mode : string) (p : Page) : Page :=
  {| vizMode := mode;
     insight := insight p;
     isUpdatingInsight := true;
     config_mode := mode;
     clock := clock p;
     pending := pending p ++ [(clock p + 500, mode)] |}.

(** The callback given to [setTimeout], for the captured [mode]. *)
Definition swap_insight (mode : string) (p : Page) : Page :=
  {| vizMode := vizMode p;
     insight := get_member VIZ_DESCRIPTIONS mode;
     isUpdatingInsight := false;
     config_mode := config_mode p;
     clock := clock p;
     pending := pending p |}.

(** [d] milliseconds pass: the callbacks that are due by then run, in
    the order in which they were registered, and the others stay. *)
Definition elapse (d : N) (p : Page) : Page :=
  let t := clock p + d in
  let due := filter (λ c, c.1 <= t) (pending p) in
  let rest := filter (λ c, ¬ c.1 <= t) (pending p) in
  fold_left (λ q c, swap_insight c.2 q) due
    {| vizMode := vizMode p; insight := insight p;
       isUpdatingInsight := isUpdatingInsight p;
       config_mode := config_mode p;
       clock := t;
       pending := rest |}.

(** The pages that the component can be in: the mounted one, and what
    mode switches and the passing of time make of it. *)
Inductive reachable : Page → Prop :=
  | reach_mount : reachable mount
  | reach_switch mode p : reachable p → reachable (changeVizMode mode p)
  | reach_elapse d p : reachable p → reachable (elapse d p).

(** What holds of every page the component can be in: no pending
    callback is due later than 500 ms from now; the last pending
    callback is the latest and carries the current mode; and with no
    callback pending the insight is that of the current mode. *)
Definition settled_or_latest (p : Page) : Prop :=
  match last (pending p) with
  | Some c => c.2 = vizMode p ∧ Forall (λ c', c'.1 <= c.1) (pending p)
  | None => insight p = get_member VIZ_DESCRIPTIONS (vizMode p)
  end.

Definition invariant (p : Page) : Prop :=
  Forall (λ c, c.1 <= clock p + 500) (pending p)
  ∧ config_mode p = vizMode p
  ∧ settled_or_latest p.

End Switcher.


(* ===================================================================== *)
(** * Numbers as the engine has them: IEEE 754 binary64                   *)
(* ===================================================================== *)

Module IEEE.

Definition prec : Z := 53.
Definition emax : Z := 1024.

(** A double, in the representation of the standard library's
    specification of floating-point arithmetic. *)
Definition binary64 : Type := spec_float.

(** The double nearest to an integer (the integer itself below 2^53). *)
Definition of_Z (z : Z) : binary64 := binary_normalize prec emax z 0 false.

(** The double nearest to [m / 10^k]: both operands are exact for the
    literals of the page, and the division rounds their quotient once. *)
Definition of_decimal (m : Z) (k : nat) : binary64 :=
  SFdiv prec emax (of_Z m) (of_Z (10 ^ Z.of_nat k)).

(** [Math.PI], 0x400921FB54442D18. *)
Definition pi : binary64 := S754_finite false 7074237752028440 (-51).

(** [x % y]: the remainder of the truncating division, which is exact;
    it has the sign of [x]. *)
Definition rem (x y : binary64) : binary64 :=
  match x, y with
  | S754_nan, _ | _, S754_nan => S754_nan
  | S754_infinity _, _ => S754_nan
  | _, S754_zero _ => S754_nan
  | _, S754_infinity _ => x
  | S754_zero _, _ => x
  | S754_finite sx mx ex, S754_finite _ my ey =>
      let ez := Z.min ex ey in
      let X := Zpos (fst (shl_align mx ex ez)) in
      let Y := Zpos (fst (shl_align my ey ez)) in
      binary_normalize prec emax (cond_Zopp sx (Z.rem X Y)) ez sx
  end.

(** [Math.floor]: the largest integer below, which is exact. *)
Definition floor (x : binary64) : binary64 :=
  match x with
  | S754_finite s m e =>
      if 0 <=? e then x
      else binary_normalize prec emax (Z.shiftr (cond_Zopp s (Zpos m)) (- e)) 0 s
  | _ => x
  end.

(** [Math.fround]: rounding to binary32, read back as a double. *)
Definition to_single (x : binary64) : spec_float :=
  match x with
  | S754_finite s m e => binary_round 24 128 s m e
  | _ => x
  end.

Definition of_single (x : spec_float) : binary64 :=
  match x with
  | S754_finite s m e => binary_round prec emax s m e
  | _ => x
  end.

Definition to_float32 (x : binary64) : binary64 := of_single (to_single x).

(** [configRef.current.particleCount = isMobile ? 800 : 1500] *)
Definition particleCount_of (isMobile : bool) : nat :=
  if isMobile then 800%nat else 1500%nat.

Definition is_finite (x : binary64) : bool :=
  match x with
  | S754_zero _ | S754_finite _ _ _ => true
  | _ => false
  end.

(** [|x| <= 2^k], on the representation. *)
Definition absle (k : Z) (x : binary64) : Prop :=
  match x with
  | S754_zero _ => True
  | S754_finite _ m e => Zpos m <= 2 ^ (k - e)
  | _ => False
  end.

Definition absleb (k : Z) (x : binary64) : bool :=
  match x with
  | S754_zero _ => true
  | S754_finite _ m e => Zpos m <=? 2 ^ (k - e)
  | _ => false
  end.

(** [|x| <= 2^k] with the sign [s], on the representation. *)
Definition signed_absle (s : bool) (k : Z) (x : binary64) : Prop :=
  match x with
  | S754_zero s' => s' = s
  | S754_finite s' m e => s' = s ∧ Zpos m <= 2 ^ (k - e)
  | _ => False
  end.

(** The least [k] with [|x| <= 2^k] for a finite [x] other than zero. *)
Definition mag (x : binary64) : Z :=
  match x with
  | S754_finite _ m e =>
      let k := Zpos (digits2_pos m) + e in
      if Zpos m <=? 2 ^ (k - 1 - e) then k - 1 else k
  | _ => 0
  end.

(** [2^k <= |x|], on the representation. *)
Definition absge (k : Z) (x : binary64) : Prop :=
  match x with
  | S754_finite _ m e => 2 ^ (k - e) <= Zpos m ∧ e <= k
  | _ => False
  end.

Definition absgeb (k : Z) (x : binary64) : bool :=
  match x with
  | S754_finite _ m e => (2 ^ (k - e) <=? Zpos m) && (e <=? k)
  | _ => false
  end.

(** [0 <= x], on the representation. *)
Definition nonneg (x : binary64) : bool :=
  match x with
  | S754_zero _ | S754_finite false _ _ => true
  | _ => false
  end.

Section Host.

(** ECMAScript leaves the results of these functions to the engine
    ("implementation-approximated"); they are parameters here. *)
Variables host_cos host_sin host_acos host_exp : binary64 → binary64.
Variable host_pow : binary64 → binary64 → binary64.

#[export] Instance number : JSNumber binary64 := {|
  lit := of_Z;
  dec := of_decimal;
  nan := S754_nan;
  add := SFadd prec emax;
  sub := SFsub prec emax;
  mul := SFmul prec emax;
  div := SFdiv prec emax;
  fmod := rem;
  neg := SFopp;
  ltb := SFltb;
  gtb := λ x y, SFltb y x;
  eqb := SFeqb;
  Math_PI := pi;
  Math_cos := host_cos;
  Math_sin := host_sin;
  Math_acos := host_acos;
  Math_sqrt := SFsqrt prec emax;
  Math_exp := host_exp;
  Math_abs := SFabs;
  Math_floor := floor;
  Math_pow := host_pow;
  fround := to_float32
|}.

(** The check that [timeRatio], the base of the power in the quant
    layout, is within [[0, 1]] at index [i]. *)
Definition timeRatio_in_unit (pCount i : nat) : bool :=
  let t := timeRatio pCount i in nonneg t && absleb 0 t.

(** The Lorenz table of [n] points, with the constants of the loop
    evaluated once, as [createParticles] does, and the check that its
    entries are finite. *)
Definition lorenz_table_finite (n : nat) : bool :=
  let sigma := sigma in let rho := rho in let beta := beta in let dt := dt in
  let scale := dec 8 1 in let shift := lit 25 in
  forallb is_finite
    (trajectory (lorenz_step_with sigma rho beta dt) (lorenz_point_with scale shift)
       (dec 1 1, lit 0, lit 0) n).


End Host.

(** What the proofs of finiteness assume of the engine: cosine and sine
    of a finite number are within [-1, 1]; the arc cosine of a number
    within [-1, 1] is within [-4, 4]; the power 1.5 of a number within
    [0, 1] is within [-1, 1]. *)
Definition engine_ranges (cos sin acos : binary64 → binary64)
    (pow : binary64 → binary64 → binary64) : Prop :=
  (∀ x, is_finite x = true → absle 0 (cos x))
  ∧ (∀ x, is_finite x = true → absle 0 (sin x))
  ∧ (∀ x, absle 0 x → absle 2 (acos x))
  ∧ (∀ x, nonneg x = true → absle 0 x → absle 0 (pow x (of_decimal 15 1))).

(** [Math.random] returns doubles in [[0, 1)]. *)
Definition unit_draws (random : nat → binary64) : Prop :=
  ∀ k, valid_binary prec emax (random k) = true
       ∧ SFleb (of_Z 0) (random k) = true
       ∧ SFltb (random k) (of_Z 1) = true.

Definition all_finite (l : list binary64) : Prop :=
  Forall (λ v, is_finite v = true) l.

(** Stand-ins for the engine's functions, crude but within the ranges
    of the functions they stand for; they serve where a statement is
    instantiated on concrete data. *)
Definition flat_cos (x : binary64) : binary64 := of_Z 1.
Definition flat_sin (x : binary64) : binary64 := of_Z 0.
Definition flat_acos (x : binary64) : binary64 := of_Z 0.
Definition flat_exp (x : binary64) : binary64 := of_Z 1.
Definition flat_pow (x y : binary64) : binary64 := x.

Definition flat_number : JSNumber binary64 :=
  number flat_cos flat_sin flat_acos flat_exp flat_pow.

End IEEE.

(* ===================================================================== *)
(** * The rest of the component                                           *)
(* ===================================================================== *)

Section Mounted.
Context {Num : Type} `{JSNumber Num}.
Local Open Scope string_scope.
Local Open Scope js_scope.

(** The colour triple stored for the particle whose iteration starts
    after [c] calls to [Math.random]. *)
Definition color_triple (random : nat → Num) (gold white : Color Num) (c : nat)
    : Num * Num * Num :=
  let color := initial_color random gold white c in
  (r color, g color, b color).

End Mounted.

(** The mode identifiers that the buttons of the page pass to
    [changeVizMode]: the foundations console, the four tiles of the map,
    the four foundation cards and the three domain buttons. *)
Definition foundation_console : list string :=
  ["graph"; "orbit"; "matrix"; "threebody"; "lorenz"]%string.
Definition map_tiles : list string :=
  ["golden"; "topology"; "calculus"; "series"]%string.
Definition foundation_cards : list string :=
  ["threebody"; "graph"; "matrix"; "lorenz"]%string.
Definition domain_buttons : list string :=
  ["neural"; "quant"; "nash"]%string.
Definition buttons : list string :=
  foundation_console ++ map_tiles ++ foundation_cards ++ domain_buttons.

(** The pages that clicks on the buttons and the passing of time make
    of the mounted page. *)
Inductive clicked : Switcher.Page → Prop :=
  | clicked_mount : clicked Switcher.mount
  | clicked_button mode p :
      mode ∈ buttons → clicked p → clicked (Switcher.changeVizMode mode p)
  | clicked_elapse d p : clicked p → clicked (Switcher.elapse d p).

(** The modes whose target is the stored table entry, with no offset
    that depends on the clock. *)
Definition static_modes : list string :=
  ["graph"; "neural"; "nash"; "lorenz"; "golden"; "topology"; "calculus";
   "series"]%string.

(** The pending callbacks are in the order of their due times. *)
Fixpoint due_sorted (l : list (N * string)) : Prop :=
  match l with
  | [] => True
  | c :: l => Forall (λ b, (c.1 <= b.1)%N) l ∧ due_sorted l
  end.

(** ** Sample data *)

Section Samples.
Context {Num : Type} `{JSNumber Num}.

(** One particle at [(1, 2, 3)] and the scene around it. *)
Definition one_particle : Scene :=
  {| position_array := [lit 1; lit 2; lit 3];
     color_array := [lit 1; lit 1; lit 1];
     color_needsUpdate := false; position_needsUpdate := false;
     camera_position := (lit 0, lit 8, lit 25);
     particles_rotation := (lit 0, lit 0, lit 0);
     lines_rotation := (lit 0, lit 0, lit 0);
     lines_visible := true; lines_position := [] |}.

(** A frame for one particle whose graph target is [(1, 5, 3)], with
    the pointer in the middle of the window. *)
Definition one_frame : FrameInput :=
  {| now := lit 0; mouse := (lit 0, lit 0); isMobile := false;
     particleCount := 1;
     frame_targets :=
       {| graph := [lit 1; lit 5; lit 3]; orbit := []; matrix := [];
          threebody := []; neural := []; quant := []; nash := []; lorenz := [];
          golden := []; topology := []; calculus := []; series := [] |} |}.

End Samples.

(* ===================================================================== *)
(** * The embedding on small inputs                                       *)
(* ===================================================================== *)

Module Examples.
Import IEEE.
#[local] Existing Instance flat_number.

(** [0.1] and [0.08] are the doubles 0x3FB999999999999A and
    0x3FB47AE147AE147B. *)
Example literal_0_1 : dec 1 1 = S754_finite false 7205759403792794 (-56).
Proof. reflexivity. Qed.

Example literal_0_08 : dec 8 2 = S754_finite false 5764607523034235 (-56).
Proof. reflexivity. Qed.

(** [7 % 3], [-7 % 3], [Math.floor(-0.5)], [Math.fround(0.1)]. *)
Example rem_7_3 : fmod (lit 7) (lit 3) = lit 1.
Proof. reflexivity. Qed.

Example rem_neg7_3 : fmod (lit (-7)) (lit 3) = lit (-1).
Proof. reflexivity. Qed.

Example floor_neg_half : Math_floor (dec (-5) 1) = lit (-1).
Proof. reflexivity. Qed.

Example fround_0_1 : fround (dec 1 1) = S754_finite false 7205759511166976 (-56).
Proof. reflexivity. Qed.

(** The first Lorenz point: one step from [(0.1, 0, 0)] gives
    [(0.09, 0.028, 0)], pushed as [(0.072, 0.0224, -20)]. *)
Example lorenz_first_point :
  lorenz_from (dec 1 1, lit 0, lit 0) 1
  = [S754_finite false 5188146770730812 (-56);
     S754_finite false 6456360425798344 (-58);
     lit (-20)].
Proof. by vm_compute. Qed.

(** The grid point of index 16: column 1, row 1, layer 0. *)
Example matrix_point_16 : matrix_point 16 = (lit (-21), lit (-21), lit (-7)).
Proof. by vm_compute. Qed.

(** A second switch within the delay of the first: the first callback
    still runs, 500 ms after the first switch. *)
Example two_switches :
  Switcher.insight
    (Switcher.elapse 400
       (Switcher.changeVizMode "nash"
          (Switcher.elapse 100 (Switcher.changeVizMode "orbit" Switcher.mount))))
  = Switcher.get_member VIZ_DESCRIPTIONS "orbit".
Proof. by vm_compute. Qed.

End Examples.

(* ===================================================================== *)
(** * The generator in closed form                                        *)
(* ===================================================================== *)

Section GeneratorFacts.
Context {Num : Type} `{JSNumber Num}.
Variable random : nat → Num.
Variables gold white : Color Num.

Lemma length_triple (p : Num * Num * Num) : length (triple p) = 3%nat.
Proof. by destruct p as [[x y] z]. Qed.

Lemma push3_triple (a : list Num) (p : Num * Num * Num) :
  push3 a p = a ++ triple p.
Proof. by destruct p as [[x y] z]. Qed.

Lemma table_S (f : nat → Num * Num * Num) (n : nat) :
  table f (S n) = table f n ++ triple (f n).
Proof.
  unfold table. rewrite seq_S, flat_map_app. simpl. by rewrite app_nil_r.
Qed.

Lemma length_table (f : nat → Num * Num * Num) (n : nat) :
  length (table f n) = (3 * n)%nat.
Proof.
  induction n as [|n IH]; [done|].
  rewrite table_S, length_app, IH, length_triple. lia.
Qed.

(** Entry [3 i + k] of a table is component [k] of the point of index [i]. *)
Lemma table_lookup (f : nat → Num * Num * Num) (n i k : nat) :
  (i < n)%nat → (k < 3)%nat →
  table f n !! (3 * i + k)%nat = triple (f i) !! k.
Proof.
  intros Hi Hk. induction n as [|n IH]; [lia|].
  rewrite table_S. destruct (decide (i = n)) as [->|Hne].
  - rewrite lookup_app_r by (rewrite length_table; lia).
    rewrite length_table. f_equal. lia.
  - rewrite lookup_app_l by (rewrite length_table; lia).
    apply IH. lia.
Qed.

(** The first [3 k] entries of a table are the table of the first [k]
    points. *)
Lemma table_take (f : nat → Num * Num * Num) (n k : nat) :
  (k ≤ n)%nat → take (3 * k) (table f n) = table f k.
Proof.
  intros Hk. induction n as [|n IH].
  - replace k with 0%nat by lia. done.
  - destruct (decide (k = S n)) as [->|Hne].
    + apply firstn_all2. rewrite length_table. lia.
    + rewrite table_S, take_app_le by (rewrite length_table; lia).
      apply IH. lia.
Qed.

Lemma tables_S (pCount c0 n : nat) (st : GenState Num) :
  calls st = (c0 + 18 * n)%nat →
  (lx st, ly st, lz st) = lorenz_state n →
  targets st = tables random pCount c0 n →
  targets (particle random gold white pCount n st) = tables random pCount c0 (S n).
Proof.
  intros Hc Hl Ht. unfold particle. cbv zeta. rewrite Hc, Hl, Ht.
  destruct (graph_point _ _) as [[x y] z] eqn:Hg.
  unfold tables.
  cbn [targets graph orbit matrix threebody neural quant nash lorenz golden
       topology calculus series].
  rewrite !table_S, !push3_triple. cbv beta.
  by rewrite Hg.
Qed.

Lemma particle_calls (pCount i : nat) (st : GenState Num) :
  calls (particle random gold white pCount i st) = (calls st + 18)%nat.
Proof. unfold particle. cbv zeta. by destruct (graph_point random _) as [[x y] z]. Qed.

Lemma particle_lorenz (pCount i : nat) (st : GenState Num) :
  let st' := particle random gold white pCount i st in
  (lx st', ly st', lz st') = lorenz_step (lx st, ly st, lz st).
Proof.
  unfold particle. cbv zeta. destruct (graph_point random _) as [[x y] z].
  cbn [lx ly lz]. by destruct (lorenz_step _) as [[a b'] c].
Qed.

Lemma particle_lengths (pCount i : nat) (st : GenState Num) :
  let st' := particle random gold white pCount i st in
  length (positions st') = length (positions st)
  ∧ length (colors st') = length (colors st).
Proof.
  unfold particle. cbv zeta. destruct (graph_point random _) as [[x y] z].
  cbn [positions colors]. unfold set32. by rewrite !length_insert.
Qed.

Lemma iterations_S (pCount c0 n : nat) :
  iterations random gold white pCount c0 (S n)
  = particle random gold white pCount n (iterations random gold white pCount c0 n).
Proof. unfold iterations. by rewrite seq_S, fold_left_app. Qed.

(** The state of the generator after [n] iterations. *)
Lemma iterations_spec (pCount c0 n : nat) :
  let st := iterations random gold white pCount c0 n in
  calls st = (c0 + 18 * n)%nat
  ∧ (lx st, ly st, lz st) = lorenz_state n
  ∧ targets st = tables random pCount c0 n
  ∧ length (positions st) = (pCount * 3)%nat
  ∧ length (colors st) = (pCount * 3)%nat.
Proof.
  cbv zeta. induction n as [|n IH].
  - unfold iterations; simpl. rewrite !length_replicate.
    repeat split; try done; lia.
  - rewrite iterations_S.
    set (st := iterations random gold white pCount c0 n) in *.
    destruct IH as (Hc & Hl & Ht & Hp & Hq).
    pose proof (particle_lengths pCount n st) as [Hp' Hq'].
    split; [|split; [|split; [|split]]].
    + rewrite particle_calls. lia.
    + rewrite (particle_lorenz pCount n st), Hl. done.
    + by apply tables_S.
    + congruence.
    + congruence.
Qed.

Lemma createParticles_targets (pCount : nat) :
  targets (createParticles random gold white pCount) = tables random pCount 0 pCount.
Proof. apply (iterations_spec pCount 0 pCount). Qed.

Lemma target_of_tables (pCount c0 n : nat) (mode : string) :
  mode ∈ modes →
  ∃ f, target_of (tables random pCount c0 n) mode = Some (table f n).
Proof.
  unfold modes. rewrite !elem_of_cons, elem_of_nil.
  intros Hm. repeat (destruct Hm as [->|Hm]; [eexists; reflexivity|]). done.
Qed.

Lemma lorenz_from_spec (n : nat) :
  ∀ l, lorenz_from l n
       = table (λ i, lorenz_point (Nat.iter (S i) lorenz_step l)) n.
Proof.
  unfold table, lorenz_from. induction n as [|n IH]; intros l; [done|].
  cbn [trajectory]. rewrite IH.
  change (seq 0 (S n)) with (0%nat :: seq 1 n).
  rewrite <- seq_shift. cbn [flat_map]. f_equal.
  generalize (seq 0 n). intros l0.
  induction l0 as [|i l0 IHl]; [done|].
  cbn [map flat_map]. rewrite IHl. f_equal.
  by rewrite <- !Nat.iter_succ_r.
Qed.

Lemma Forall_table (P : Num → Prop) (f : nat → Num * Num * Num) (n : nat) :
  (∀ i, (i < n)%nat → Forall P (triple (f i))) → Forall P (table f n).
Proof.
  intros Hf. unfold table. apply Forall_flat_map, Forall_forall.
  intros i Hi. apply Hf. apply list_elem_of_In, in_seq in Hi. lia.
Qed.

End GeneratorFacts.

(* ===================================================================== *)
(** * The line scan                                                       *)
(* ===================================================================== *)

Section LineFacts.
Context {Num : Type} `{JSNumber Num}.
Local Open Scope nat_scope.

Lemma check_pair_emitted (mode : string) (positions : list Num) (i j : nat)
    (acc : list Num) :
  check_pair mode positions i j acc = acc ++ emitted mode positions (i, j).
Proof.
  unfold check_pair, emitted. cbn [fst snd].
  destruct (ltb _ _); [done|]. by rewrite app_nil_r.
Qed.

(** The inner loop with enough fuel visits [j], [j + 1], ... up to its
    bound. *)
Lemma scan_j_spec (mode : string) (positions : list Num) (checkLimit limit i : nat) :
  ∀ fuel j acc,
    Nat.min (i + checkLimit) limit - j ≤ fuel →
    scan_j fuel mode positions checkLimit limit i j acc
    = acc ++ flat_map (λ j', emitted mode positions (i, j'))
               (seq j (Nat.min (i + checkLimit) limit - j)).
Proof.
  induction fuel as [|fuel IH]; intros j acc Hfuel.
  - replace (Nat.min (i + checkLimit) limit - j) with 0 by lia.
    simpl. by rewrite app_nil_r.
  - simpl. destruct (Nat.ltb_spec j (Nat.min (i + checkLimit) limit)) as [Hlt|Hge].
    + rewrite IH by lia. rewrite check_pair_emitted, <- app_assoc. f_equal.
      replace (Nat.min (i + checkLimit) limit - j)
        with (S (Nat.min (i + checkLimit) limit - (j + 1))) by lia.
      simpl. by rewrite Nat.add_1_r.
    + replace (Nat.min (i + checkLimit) limit - j) with 0 by lia.
      simpl. by rewrite app_nil_r.
Qed.

Lemma filter_seq_no_multiple (step a n : nat) :
  (∀ i, a ≤ i < a + n → i mod step ≠ 0) →
  filter (λ i, i mod step = 0) (seq a n) = [].
Proof.
  revert a. induction n as [|n IH]; intros a Hno; [done|].
  simpl. rewrite filter_cons_False by (apply Hno; lia).
  apply IH. intros i Hi. apply Hno. lia.
Qed.

(** The multiples of [step] from a multiple [i] on: [i] itself, then
    those from [i + step] on. *)
Lemma filter_seq_stride (step i limit : nat) :
  0 < step → i mod step = 0 → i < limit →
  filter (λ i, i mod step = 0) (seq i (limit - i))
  = i :: filter (λ i, i mod step = 0) (seq (i + step) (limit - (i + step))).
Proof.
  intros Hstep Hi Hlt.
  replace (limit - i) with (S (limit - (i + 1))) by lia.
  simpl. rewrite filter_cons_True by done. f_equal.
  assert (Hmid : ∀ k, i < k < i + step → k mod step ≠ 0).
  { intros k Hk Hmod.
    apply Nat.Div0.mod_divides in Hi as [a ->], Hmod as [c ->].
    destruct (Nat.le_gt_cases c a) as [Hca|Hca].
    - apply (Nat.mul_le_mono_l _ _ step) in Hca. lia.
    - apply (Nat.mul_le_mono_l _ _ step) in Hca. lia. }
  destruct (Nat.le_gt_cases (i + step) limit) as [Hle|Hgt].
  - replace (limit - (i + 1)) with ((step - 1) + (limit - (i + step))) by lia.
    rewrite seq_app, filter_app.
    rewrite filter_seq_no_multiple by (intros k Hk; apply Hmid; lia).
    simpl. do 2 f_equal. lia.
  - replace (limit - (i + step)) with 0 by lia. simpl.
    apply filter_seq_no_multiple. intros k Hk. apply Hmid. lia.
Qed.

(** The outer loop with enough fuel visits the multiples of [step]. *)
Lemma scan_i_spec (mode : string) (positions : list Num) (checkLimit limit step : nat) :
  0 < step →
  ∀ fuel i acc,
    i mod step = 0 → limit - i ≤ fuel →
    scan_i fuel mode positions checkLimit limit step i acc
    = acc ++ flat_map (emitted mode positions)
               (flat_map
                  (λ i, map (λ j, (i, j))
                          (seq (i + 1) (Nat.min (i + checkLimit) limit - (i + 1))))
                  (filter (λ i, i mod step = 0) (seq i (limit - i)))).
Proof.
  intros Hstep. induction fuel as [|fuel IH]; intros i acc Hi Hfuel.
  - replace (limit - i) with 0 by lia. simpl. by rewrite app_nil_r.
  - simpl. destruct (Nat.ltb_spec i limit) as [Hlt|Hge].
    + rewrite IH; [| |lia].
      2:{ rewrite <- Nat.Div0.add_mod_idemp_l, Hi. simpl.
          apply Nat.Div0.mod_same. }
      rewrite scan_j_spec by lia.
      rewrite (filter_seq_stride step i limit) by done.
      simpl. rewrite flat_map_app, <- app_assoc. do 2 f_equal.
      generalize (seq (i + 1) (Nat.min (i + checkLimit) limit - (i + 1))).
      intros l. induction l as [|j l IHl]; [done|]. simpl. by rewrite IHl.
    + replace (limit - i) with 0 by lia. simpl. by rewrite app_nil_r.
Qed.

Lemma linePositions_of_spec (mode : string) (mobile : bool) (limit : nat)
    (positions : list Num) :
  linePositions_of mode mobile limit positions
  = flat_map (emitted mode positions)
      (scanned_pairs (step_of mobile) (checkLimit_of mobile) limit).
Proof.
  unfold linePositions_of, scanned_pairs.
  rewrite scan_i_spec; [|destruct mobile; simpl; lia| |lia].
  - by rewrite Nat.sub_0_r.
  - apply Nat.Div0.mod_0_l.
Qed.

Lemma scanned_pairs_spec (step checkLimit limit i j : nat) :
  (i, j) ∈ scanned_pairs step checkLimit limit
  ↔ i mod step = 0 ∧ i < limit ∧ i < j ∧ j < i + checkLimit ∧ j < limit.
Proof.
  unfold scanned_pairs. rewrite list_elem_of_In, in_flat_map. split.
  - intros (i' & Hi' & Hin).
    apply list_elem_of_In, list_elem_of_filter in Hi' as [Hmod Hseq].
    apply list_elem_of_In, in_seq in Hseq.
    apply in_map_iff in Hin as (j' & Heq & Hj'). apply in_seq in Hj'.
    inversion Heq; subst. lia.
  - intros (Hmod & Hi & Hij & Hj & Hjl). exists i. split.
    + apply list_elem_of_In, list_elem_of_filter. split; [done|].
      apply list_elem_of_In, in_seq. lia.
    + apply in_map_iff. exists j. split; [done|]. apply in_seq. lia.
Qed.

End LineFacts.

(* ===================================================================== *)
(** * The frame                                                           *)
(* ===================================================================== *)

Section FrameFacts.
Context {Num : Type} `{JSNumber Num}.
Local Open Scope nat_scope.

Lemma length_set32 (a : list Num) (i : nat) (v : Num) :
  length (set32 a i v) = length a.
Proof. apply length_insert. Qed.

Lemma lookup_set32_ne (a : list Num) (i j : nat) (v : Num) :
  i ≠ j → set32 a i v !! j = a !! j.
Proof. apply list_lookup_insert_ne. Qed.

Lemma lookup_set32_eq (a : list Num) (i : nat) (v : Num) :
  i < length a → set32 a i v !! i = Some (fround v).
Proof. apply list_lookup_insert_eq. Qed.

Lemma get_set32_ne (a : list Num) (i j : nat) (v : Num) :
  i ≠ j → get (set32 a i v) j = get a j.
Proof. intros Hne. unfold get. by rewrite lookup_set32_ne. Qed.

(** A loop whose iteration [i] stores into the slots [3 i], [3 i + 1]
    and [3 i + 2] only: after [n] iterations the slots from [3 n] on are
    as before, and the slots of [i < n] are as iteration [i] left them. *)
Section SlotLoop.
Variable body : list Num → nat → list Num.
Hypothesis body_length : ∀ a i, length (body a i) = length a.
Hypothesis body_other :
  ∀ a i j, j < i * 3 ∨ i * 3 + 3 ≤ j → body a i !! j = a !! j.

Lemma slot_loop_S (n : nat) (a : list Num) :
  fold_left body (seq 0 (S n)) a = body (fold_left body (seq 0 n) a) n.
Proof. by rewrite seq_S, fold_left_app. Qed.

Lemma slot_loop_length (n : nat) (a : list Num) :
  length (fold_left body (seq 0 n) a) = length a.
Proof.
  induction n as [|n IH]; [done|]. by rewrite slot_loop_S, body_length.
Qed.

Lemma slot_loop_ge (n : nat) (a : list Num) (j : nat) :
  n * 3 ≤ j → fold_left body (seq 0 n) a !! j = a !! j.
Proof.
  induction n as [|n IH]; intros Hj; [done|].
  rewrite slot_loop_S, body_other by lia. apply IH. lia.
Qed.

Lemma slot_loop_lt (n : nat) (a : list Num) (i k : nat) :
  i < n → k < 3 →
  fold_left body (seq 0 n) a !! (i * 3 + k)
  = body (fold_left body (seq 0 i) a) i !! (i * 3 + k).
Proof.
  intros Hi Hk. induction n as [|n IH]; [lia|].
  rewrite slot_loop_S. destruct (decide (i = n)) as [->|Hne]; [done|].
  rewrite body_other by lia. apply IH. lia.
Qed.

End SlotLoop.

(** ** The movement loop *)

Lemma move_length (mode : string) (t : Targets Num) (time : Num) (a : list Num) (i : nat) :
  length (move mode t time a i) = length a.
Proof.
  unfold move. destruct (target mode t time i) as [[tx ty] tz].
  by rewrite !length_set32.
Qed.

Lemma move_other (mode : string) (t : Targets Num) (time : Num) (a : list Num) (i j : nat) :
  j < i * 3 ∨ i * 3 + 3 ≤ j → move mode t time a i !! j = a !! j.
Proof.
  intros Hj. unfold move. destruct (target mode t time i) as [[tx ty] tz].
  rewrite !lookup_set32_ne by lia. done.
Qed.

Lemma move_own (mode : string) (t : Targets Num) (time : Num) (a : list Num)
    (i k : nat) (tk : Num) :
  i * 3 + 2 < length a →
  triple (target mode t time i) !! k = Some tk →
  move mode t time a i !! (i * 3 + k) = Some (fround (ease (get a (i * 3 + k)) tk)).
Proof.
  intros Hlen Hk. unfold move. destruct (target mode t time i) as [[tx ty] tz].
  destruct k as [|[|[|k]]]; simpl in Hk; inversion Hk; subst.
  - rewrite !lookup_set32_ne, Nat.add_0_r by lia.
    by rewrite lookup_set32_eq by lia.
  - rewrite lookup_set32_ne by lia.
    rewrite lookup_set32_eq by (rewrite length_set32; lia).
    by rewrite get_set32_ne by lia.
  - rewrite lookup_set32_eq by (rewrite !length_set32; lia).
    by rewrite !get_set32_ne by lia.
Qed.

(** Every particle of the loop is eased once towards its target. *)
Lemma movement_lookup (mode : string) (t : Targets Num) (time : Num) (count : nat)
    (a : list Num) (i k : nat) (tk : Num) :
  i < count → i * 3 + 2 < length a →
  triple (target mode t time i) !! k = Some tk →
  movement mode t time count a !! (i * 3 + k)
  = Some (fround (ease (get a (i * 3 + k)) tk)).
Proof.
  intros Hi Hlen Hk.
  assert (Hk3 : k < 3).
  { apply lookup_lt_Some in Hk. by rewrite length_triple in Hk. }
  unfold movement.
  rewrite (slot_loop_lt _ (move_other mode t time)) by done.
  rewrite (move_own _ _ _ _ _ _ tk); [|by rewrite slot_loop_length; [|apply move_length]|done].
  unfold get at 1. rewrite (slot_loop_ge _ (move_other mode t time)) by lia.
  done.
Qed.

(** ** The neural pulse *)

Lemma pulse_length (wavePos : Num) (positions colors : list Num) (i : nat) :
  length (pulse wavePos positions colors i) = length colors.
Proof. unfold pulse. by rewrite !length_set32. Qed.

Lemma pulse_other (wavePos : Num) (positions colors : list Num) (i j : nat) :
  j < i * 3 ∨ i * 3 + 3 ≤ j → pulse wavePos positions colors i !! j = colors !! j.
Proof. intros Hj. unfold pulse. by rewrite !lookup_set32_ne by lia. Qed.

(** ** What a frame leaves in the two typed arrays *)

Lemma updateLines_arrays (mode : string) (inp : FrameInput) (sc : Scene) :
  position_array (updateLines mode inp sc) = position_array sc
  ∧ color_array (updateLines mode inp sc) = color_array sc.
Proof. unfold updateLines. by destruct (lines_hidden mode). Qed.

Lemma animate_color_array (mode : string) (inp : FrameInput) (sc : Scene) :
  color_array (animate mode inp sc)
  = if String.eqb mode "neural"
    then neural_pulse (mul (now inp) (dec 1 3)) (particleCount inp)
           (position_array sc) (color_array sc)
    else color_array sc.
Proof.
  unfold animate. destruct (camera_position sc) as [[cx cy] cz].
  destruct (rotations mode _) as [prot lrot].
  by rewrite (proj2 (updateLines_arrays _ _ _)).
Qed.

Lemma animate_position_array (mode : string) (inp : FrameInput) (sc : Scene) :
  position_array (animate mode inp sc)
  = movement mode (frame_targets inp) (mul (now inp) (dec 1 3)) (particleCount inp)
      (position_array sc).
Proof.
  unfold animate. destruct (camera_position sc) as [[cx cy] cz].
  destruct (rotations mode _) as [prot lrot].
  by rewrite (proj1 (updateLines_arrays _ _ _)).
Qed.

Lemma pulse_own (w : Num) (positions colors : list Num) (i : nat) :
  i * 3 + 2 < length colors →
  let gl := glow w positions i in
  pulse w positions colors i !! (i * 3)
  = Some (fround (add (dec 83 2) (mul (dec 17 2) gl)))
  ∧ pulse w positions colors i !! (i * 3 + 1)
    = Some (fround (add (dec 68 2) (mul (dec 32 2) gl)))
  ∧ pulse w positions colors i !! (i * 3 + 2)
    = Some (fround (add (dec 21 2) (mul (dec 79 2) gl))).
Proof.
  intros Hlen. cbv zeta. unfold pulse. cbv zeta. repeat split.
  - rewrite !lookup_set32_ne by lia. by rewrite lookup_set32_eq by lia.
  - rewrite lookup_set32_ne by lia.
    by rewrite lookup_set32_eq by (rewrite length_set32; lia).
  - by rewrite lookup_set32_eq by (rewrite !length_set32; lia).
Qed.

(** Every particle of the loop gets the colour of the pulse. *)
Lemma neural_pulse_lookup (time : Num) (count : nat) (positions colors : list Num)
    (i : nat) :
  i < count → i * 3 + 2 < length colors →
  let gl := glow (wavePos time) positions i in
  neural_pulse time count positions colors !! (i * 3)
  = Some (fround (add (dec 83 2) (mul (dec 17 2) gl)))
  ∧ neural_pulse time count positions colors !! (i * 3 + 1)
    = Some (fround (add (dec 68 2) (mul (dec 32 2) gl)))
  ∧ neural_pulse time count positions colors !! (i * 3 + 2)
    = Some (fround (add (dec 21 2) (mul (dec 79 2) gl))).
Proof.
  intros Hi Hlen. cbv zeta. unfold neural_pulse. cbv zeta.
  set (body := λ colors i, pulse (wavePos time) positions colors i).
  assert (Hother : ∀ a i j, j < i * 3 ∨ i * 3 + 3 ≤ j → body a i !! j = a !! j)
    by (intros; by apply pulse_other).
  assert (Hlength : ∀ a i, length (body a i) = length a)
    by (intros; apply pulse_length).
  pose proof (pulse_own (wavePos time) positions
                (fold_left body (seq 0 i) colors) i) as Hown.
  rewrite (slot_loop_length body Hlength) in Hown. specialize (Hown Hlen).
  cbv zeta in Hown. destruct Hown as (H0 & H1 & H2).
  pose proof (slot_loop_lt body Hother count colors i 0 Hi ltac:(lia)) as E0.
  pose proof (slot_loop_lt body Hother count colors i 1 Hi ltac:(lia)) as E1.
  pose proof (slot_loop_lt body Hother count colors i 2 Hi ltac:(lia)) as E2.
  rewrite Nat.add_0_r in E0. rewrite E0, E1, E2. done.
Qed.

Lemma target_unknown (mode : string) (t : Targets Num) (time : Num) (i : nat) :
  mode ∉ modes → target mode t time i = (lit 0, lit 0, lit 0).
Proof.
  unfold modes. rewrite !not_elem_of_cons. intros Hm. destruct_and! Hm.
  unfold target.
  repeat (match goal with
          | Hne : mode ≠ ?s |- context [String.eqb mode ?s] =>
              rewrite (proj2 (String.eqb_neq mode s) Hne)
          end).
  done.
Qed.

End FrameFacts.

(* ===================================================================== *)
(** * The mode switcher                                                   *)
(* ===================================================================== *)

Module SwitcherFacts.
Import Switcher.
Local Open Scope N_scope.

(** Running a batch of due callbacks: the last one decides the insight,
    nothing else changes. *)
Lemma run_callbacks (l : list (N * string)) (q : Page) :
  let q' := fold_left (λ q c, swap_insight c.2 q) l q in
  vizMode q' = vizMode q ∧ config_mode q' = config_mode q
  ∧ clock q' = clock q ∧ pending q' = pending q
  ∧ insight q' = from_option (λ c, get_member VIZ_DESCRIPTIONS c.2) (insight q) (last l).
Proof.
  cbv zeta. induction l as [|c l IH] using rev_ind; [done|].
  rewrite fold_left_app, last_snoc. simpl.
  destruct IH as (Hv & Hc & Hk & Hp & _). done.
Qed.

Lemma insight_elapse (d : N) (p : Page) :
  insight (elapse d p)
  = from_option (λ c, get_member VIZ_DESCRIPTIONS c.2) (insight p)
      (last (filter (λ c, c.1 <= clock p + d) (pending p))).
Proof.
  unfold elapse. cbv zeta.
  match goal with |- insight (fold_left _ ?l ?q) = _ =>
    destruct (run_callbacks l q) as (_ & _ & _ & _ & ->) end.
  done.
Qed.

Lemma fields_elapse (d : N) (p : Page) :
  vizMode (elapse d p) = vizMode p ∧ config_mode (elapse d p) = config_mode p
  ∧ clock (elapse d p) = clock p + d
  ∧ pending (elapse d p) = filter (λ c, ¬ c.1 <= clock p + d) (pending p).
Proof.
  unfold elapse. cbv zeta.
  match goal with |- context [fold_left _ ?l ?q] =>
    destruct (run_callbacks l q) as (-> & -> & -> & -> & _) end.
  done.
Qed.

(** The last element survives a filter that it passes, and a filter that
    every element passes changes nothing. *)
Lemma last_filter_pass {A} (P : A → Prop) `{∀ x, Decision (P x)} (l : list A) (x : A) :
  last l = Some x → P x → last (filter P l) = Some x.
Proof.
  intros Hl HP. destruct l as [|y l] using rev_ind; [done|].
  rewrite last_snoc in Hl. inversion Hl; subst.
  rewrite filter_app, filter_cons_True, filter_nil by done.
  by rewrite last_snoc.
Qed.

Lemma filter_all {A} (P : A → Prop) `{∀ x, Decision (P x)} (l : list A) :
  Forall P l → filter P l = l.
Proof.
  induction 1 as [|x l Hx _ IH]; [done|]. by rewrite filter_cons_True, IH.
Qed.

Lemma filter_none {A} (P : A → Prop) `{∀ x, Decision (P x)} (l : list A) :
  Forall (λ x, ¬ P x) l → filter P l = [].
Proof.
  induction 1 as [|x l Hx _ IH]; [done|]. by rewrite filter_cons_False.
Qed.

Lemma invariant_mount : invariant mount.
Proof. repeat split; simpl; try done. Qed.

Lemma invariant_switch (mode : string) (p : Page) :
  invariant p → invariant (changeVizMode mode p).
Proof.
  intros (Hdue & Hcfg & Hlast). unfold invariant, settled_or_latest. simpl.
  rewrite last_snoc. simpl. repeat split.
  - apply Forall_app. split; [done|]. by apply Forall_singleton.
  - apply Forall_app. split; [done|]. by apply Forall_singleton.
Qed.

Lemma invariant_elapse (d : N) (p : Page) :
  invariant p → invariant (elapse d p).
Proof.
  intros (Hdue & Hcfg & Hlast). unfold invariant, settled_or_latest.
  destruct (fields_elapse d p) as (Hv & Hc & Hk & Hp).
  rewrite insight_elapse, Hv, Hc, Hk, Hp. split; [|split; [done|]].
  - apply Forall_forall. intros c Hin.
    apply list_elem_of_filter in Hin as [_ Hin].
    rewrite Forall_forall in Hdue. specialize (Hdue c Hin). lia.
  - unfold settled_or_latest in Hlast.
    destruct (last (pending p)) as [c|] eqn:Hl.
    + destruct Hlast as [Hmode Hmax].
      destruct (decide (c.1 <= clock p + d)) as [Hc_due|Hc_late].
      * (* the latest callback is due: all of them run *)
        assert (Hall : Forall (λ c', c'.1 <= clock p + d) (pending p)).
        { eapply Forall_impl; [exact Hmax|]. simpl. intros c' Hc'. lia. }
        rewrite filter_none by (eapply Forall_impl; [exact Hall|]; naive_solver).
        rewrite filter_all by done. simpl. rewrite Hl. simpl. by rewrite Hmode.
      * (* the latest callback stays, and stays the latest *)
        rewrite (last_filter_pass _ _ c) by done. split; [done|].
        apply Forall_forall. intros c' Hin.
        apply list_elem_of_filter in Hin as [_ Hin].
        rewrite Forall_forall in Hmax. by apply Hmax.
    + apply last_None in Hl. rewrite Hl. simpl. done.
Qed.

Lemma reachable_invariant (p : Page) : reachable p → invariant p.
Proof.
  induction 1 as [|mode p _ IH|d p _ IH].
  - apply invariant_mount.
  - by apply invariant_switch.
  - by apply invariant_elapse.
Qed.

(** Once the delay of the latest switch has passed, every pending
    callback has run and the insight is that of the latest mode. *)
Lemma insight_after_delay (mode : string) (d : N) (p : Page) :
  invariant p → 500 <= d →
  insight (elapse d (changeVizMode mode p)) = get_member VIZ_DESCRIPTIONS mode.
Proof.
  intros (Hdue & _ & _) Hd. rewrite insight_elapse. simpl.
  rewrite filter_all.
  - by rewrite last_snoc.
  - apply Forall_app. split.
    + eapply Forall_impl; [exact Hdue|]. simpl. intros c Hc. lia.
    + apply Forall_singleton. simpl. lia.
Qed.


Lemma lookup_outside_modes (mode : string) :
  mode ∉ modes → VIZ_DESCRIPTIONS !! mode = None.
Proof.
  unfold modes. rewrite !not_elem_of_cons. intros Hm. destruct_and! Hm.
  unfold VIZ_DESCRIPTIONS.
  repeat (rewrite lookup_insert_ne by congruence).
  apply lookup_empty.
Qed.

(** An identifier that is neither an own key nor a name inherited from
    [Object.prototype] has no member at all. *)
Lemma member_outside (mode : string) :
  mode ∉ modes → mode ∉ Object_prototype →
  get_member VIZ_DESCRIPTIONS mode = undefined.
Proof.
  intros Hm Hproto. unfold get_member. rewrite lookup_outside_modes by done.
  destruct (existsb (String.eqb mode) Object_prototype) eqn:Hex; [|done].
  apply existsb_exists in Hex as (key & Hin & Heq).
  apply String.eqb_eq in Heq. subst key. by apply list_elem_of_In in Hin.
Qed.

(** The twelve modes are own keys of the table. *)
Lemma member_inside (mode : string) :
  mode ∈ modes →
  ∃ d, VIZ_DESCRIPTIONS !! mode = Some d ∧ get_member VIZ_DESCRIPTIONS mode = own d.
Proof.
  unfold modes. rewrite !elem_of_cons, elem_of_nil. intros Hm.
  repeat (destruct Hm as [->|Hm]; [by eexists|]). done.
Qed.

Lemma buttons_are_modes (mode : string) : mode ∈ buttons → mode ∈ modes.
Proof.
  unfold buttons, foundation_console, map_tiles, foundation_cards, domain_buttons, modes.
  simpl. rewrite !elem_of_cons, !elem_of_nil. intros Hm.
  repeat (destruct Hm as [->|Hm]; [tauto|]). done.
Qed.

Lemma clicked_reachable (p : Page) : clicked p → reachable p.
Proof.
  induction 1 as [|mode p _ _ IH|d p _ IH].
  - apply reach_mount.
  - by apply reach_switch.
  - by apply reach_elapse.
Qed.

(** On a page that the buttons produce, the current mode and the modes
    of the pending callbacks are among the twelve, and the insight is a
    description of the table. *)
Lemma clicked_described (p : Page) :
  clicked p →
  (∃ d, insight p = own d) ∧ vizMode p ∈ modes
  ∧ Forall (λ c, c.2 ∈ modes) (pending p).
Proof.
  induction 1 as [|mode p Hmode _ (Hi & Hv & Hall)|d p _ (Hi & Hv & Hall)].
  - split; [by eexists|]. split; [|done]. simpl. unfold modes. set_solver.
  - apply buttons_are_modes in Hmode. split; [done|]. split; [done|].
    simpl. apply Forall_app. split; [done|]. by apply Forall_singleton.
  - destruct (fields_elapse d p) as (Hv' & _ & _ & Hp').
    rewrite insight_elapse, Hv', Hp'. split; [|split; [done|]].
    + destruct (last (filter _ (pending p))) as [c|] eqn:Hl; [|done].
      simpl. apply last_Some_elem_of, list_elem_of_filter in Hl as [_ Hin].
      rewrite Forall_forall in Hall.
      destruct (member_inside c.2 (Hall c Hin)) as (dsc & _ & ->). by eexists.
    + apply Forall_forall. intros c Hin.
      apply list_elem_of_filter in Hin as [_ Hin].
      rewrite Forall_forall in Hall. by apply Hall.
Qed.

End SwitcherFacts.

(* ===================================================================== *)
(** * Bounds in binary64 arithmetic                                       *)
(* ===================================================================== *)

(** Rounding to nearest never carries a value across a power of two, so
    a bound [|x| <= 2^k] on the operands of an addition, subtraction or
    multiplication gives such a bound on the result; as long as [k]
    stays below the largest exponent, the result is finite. *)

Module IEEEFacts.
Import IEEE.

(** ** Digits and powers of two *)

Lemma digits2_pos_bounds (p : positive) :
  2 ^ (Zpos (digits2_pos p) - 1) <= Zpos p < 2 ^ Zpos (digits2_pos p).
Proof.
  assert (Hstep : ∀ d, 0 < d → 2 ^ d = 2 * 2 ^ (d - 1)).
  { intros d Hd. rewrite <- Z.pow_succ_r by lia. f_equal. lia. }
  induction p as [p IH|p IH|]; simpl digits2_pos.
  - rewrite Pos2Z.inj_succ. change (Zpos p~1) with (2 * Zpos p + 1).
    replace (Z.succ (Zpos (digits2_pos p)) - 1) with (Zpos (digits2_pos p)) by lia.
    rewrite (Hstep (Z.succ _)) by lia.
    replace (Z.succ (Zpos (digits2_pos p)) - 1) with (Zpos (digits2_pos p)) by lia.
    pose proof (Hstep (Zpos (digits2_pos p)) ltac:(lia)). lia.
  - rewrite Pos2Z.inj_succ. change (Zpos p~0) with (2 * Zpos p).
    replace (Z.succ (Zpos (digits2_pos p)) - 1) with (Zpos (digits2_pos p)) by lia.
    rewrite (Hstep (Z.succ _)) by lia.
    replace (Z.succ (Zpos (digits2_pos p)) - 1) with (Zpos (digits2_pos p)) by lia.
    pose proof (Hstep (Zpos (digits2_pos p)) ltac:(lia)). lia.
  - simpl. lia.
Qed.

Lemma Zdigits2_le (m j : Z) :
  0 <= j → 0 <= m <= 2 ^ j → Zdigits2 m <= j + 1.
Proof.
  intros Hj [Hm0 Hm]. destruct m as [|p|p]; simpl; [lia| |lia].
  destruct (digits2_pos_bounds p) as [Hlo _].
  destruct (Z.le_gt_cases (Zpos (digits2_pos p)) (j + 1)) as [|Hgt]; [done|].
  assert (2 ^ (j + 1) <= 2 ^ (Zpos (digits2_pos p) - 1)) by (apply Z.pow_le_mono_r; lia).
  rewrite Z.pow_add_r, Z.pow_1_r in * by lia. lia.
Qed.

Lemma pow2_pos (k : Z) : 0 <= k → 0 < 2 ^ k.
Proof. intros. apply Z.pow_pos_nonneg; lia. Qed.

(** A positive number below [2^k] forces [0 <= k]. *)
Lemma pow2_bound_nonneg (p : positive) (k : Z) : Zpos p <= 2 ^ k → 0 <= k.
Proof.
  intros Hp. destruct (Z.le_gt_cases 0 k) as [|Hneg]; [done|].
  rewrite Z.pow_neg_r in Hp by lia. lia.
Qed.

(** ** Shifting right *)

Lemma shr_1_m (mrs : shr_record) :
  0 <= shr_m mrs → shr_m (shr_1 mrs) = shr_m mrs / 2.
Proof.
  destruct mrs as [m r0 s0]. simpl. intros Hm. rewrite <- Z.div2_div.
  by destruct m as [|[p|p|]|p].
Qed.

Lemma iter_shr_m (n : positive) :
  ∀ mrs, 0 <= shr_m mrs →
    shr_m (SpecFloat.iter_pos shr_1 n mrs) = shr_m mrs / 2 ^ Zpos n.
Proof.
  induction n as [n IH|n IH|]; intros mrs Hm; cbn [SpecFloat.iter_pos].
  - assert (0 <= shr_m (shr_1 mrs)) by (rewrite shr_1_m by done; apply Z.div_pos; lia).
    assert (0 <= shr_m (SpecFloat.iter_pos shr_1 n (shr_1 mrs))).
    { rewrite IH by done. apply Z.div_pos; [done|]. apply pow2_pos. lia. }
    rewrite !IH, shr_1_m by done.
    rewrite !Z.div_div by (try apply pow2_pos; lia).
    f_equal. replace (Zpos n~1) with (1 + (Zpos n + Zpos n)) by lia.
    rewrite !Z.pow_add_r, Z.pow_1_r by lia. lia.
  - assert (0 <= shr_m (SpecFloat.iter_pos shr_1 n mrs)).
    { rewrite IH by done. apply Z.div_pos; [done|]. apply pow2_pos. lia. }
    rewrite !IH by done.
    rewrite !Z.div_div by (try apply pow2_pos; lia).
    f_equal. replace (Zpos n~0) with (Zpos n + Zpos n) by lia.
    rewrite Z.pow_add_r by lia. lia.
  - rewrite shr_1_m by done. done.
Qed.

Lemma shr_1_double (q : Z) :
  0 <= q →
  shr_1 {| shr_m := 2 * q; shr_r := false; shr_s := false |}
  = {| shr_m := q; shr_r := false; shr_s := false |}.
Proof. by destruct q. Qed.

(** Shifting out zero bits only leaves the two rounding bits clear. *)
Lemma iter_shr_exact (n : positive) :
  ∀ q, 0 <= q →
    SpecFloat.iter_pos shr_1 n
      {| shr_m := q * 2 ^ Zpos n; shr_r := false; shr_s := false |}
    = {| shr_m := q; shr_r := false; shr_s := false |}.
Proof.
  induction n as [n IH|n IH|]; intros q Hq; cbn [SpecFloat.iter_pos].
  - replace (q * 2 ^ Zpos n~1) with (2 * ((q * 2 ^ Zpos n) * 2 ^ Zpos n)).
    + assert (0 <= q * 2 ^ Zpos n) by (apply Z.mul_nonneg_nonneg; [done|apply Z.pow_nonneg; lia]).
      rewrite shr_1_double by (apply Z.mul_nonneg_nonneg; [done|apply Z.pow_nonneg; lia]).
      by rewrite !IH.
    + replace (Zpos n~1) with (1 + (Zpos n + Zpos n)) by lia.
      rewrite !Z.pow_add_r, Z.pow_1_r by lia. lia.
  - replace (q * 2 ^ Zpos n~0) with ((q * 2 ^ Zpos n) * 2 ^ Zpos n).
    + assert (0 <= q * 2 ^ Zpos n) by (apply Z.mul_nonneg_nonneg; [done|apply Z.pow_nonneg; lia]).
      by rewrite !IH.
    + replace (Zpos n~0) with (Zpos n + Zpos n) by lia.
      rewrite Z.pow_add_r by lia. lia.
  - replace (q * 2 ^ 1) with (2 * q) by lia. by apply shr_1_double.
Qed.

Lemma shr_m_of_loc (m : Z) (l : location) : shr_m (shr_record_of_loc m l) = m.
Proof. by destruct l as [|[]]. Qed.

Lemma fexp_eq (x : Z) : fexp prec emax x = Z.max (x - 53) (-1074).
Proof. reflexivity. Qed.

(** The shift to the exponent of the format keeps a bound by a power of
    two, and a mantissa that reaches the bound was shifted exactly. *)
Lemma shr_fexp_le (m e : Z) (l : location) (K : Z) (mrs : shr_record) (e' : Z) :
  0 <= m <= 2 ^ (K - e) → e <= K → -1074 <= K →
  shr_fexp prec emax m e l = (mrs, e') →
  0 <= shr_m mrs <= 2 ^ (K - e') ∧ e' <= K
  ∧ (l = loc_Exact → shr_m mrs = 2 ^ (K - e') → loc_of_shr_record mrs = loc_Exact).
Proof.
  intros Hm He HK. unfold shr_fexp, shr. rewrite fexp_eq.
  pose proof (Zdigits2_le m (K - e) ltac:(lia) Hm) as Hd.
  destruct (Z.max (Zdigits2 m + e - 53) (-1074) - e) as [|n|n] eqn:Hn;
    intros Heq; inversion Heq; subst; clear Heq.
  - rewrite shr_m_of_loc. repeat split; try lia. by intros ->.
  - assert (He' : e + Zpos n <= K) by lia.
    assert (Hpow : 2 ^ (K - e) = 2 ^ (K - (e + Zpos n)) * 2 ^ Zpos n).
    { rewrite <- Z.pow_add_r by lia. f_equal. lia. }
    assert (0 < 2 ^ Zpos n) by (apply pow2_pos; lia).
    rewrite iter_shr_m by (rewrite shr_m_of_loc; lia). rewrite shr_m_of_loc.
    repeat split.
    + apply Z.div_pos; lia.
    + apply Z.div_le_upper_bound; [done|]. rewrite Hpow in Hm. lia.
    + done.
    + intros -> Hfull.
      assert (m = 2 ^ (K - (e + Zpos n)) * 2 ^ Zpos n) as ->.
      { pose proof (Z.mul_div_le m (2 ^ Zpos n) ltac:(done)). rewrite Hfull in *. lia. }
      simpl shr_record_of_loc.
      rewrite iter_shr_exact by (apply Z.pow_nonneg; lia). done.
  - rewrite shr_m_of_loc. repeat split; try lia. by intros ->.
Qed.

Lemma round_nearest_even_bounds (m : Z) (l : location) :
  m <= round_nearest_even m l <= m + 1.
Proof.
  unfold round_nearest_even. destruct l as [|[]]; try lia.
  destruct (Z.even m); lia.
Qed.

(** Rounding a positive mantissa that is within [2^K]: the result has
    the given sign and is within [2^K]; in particular it is finite. *)
Lemma binary_round_aux_le (s : bool) (p : positive) (e K : Z) :
  Zpos p <= 2 ^ (K - e) → -1074 <= K <= 971 →
  signed_absle s K (binary_round_aux prec emax s (Zpos p) e loc_Exact).
Proof.
  intros Hp HK. pose proof (pow2_bound_nonneg _ _ Hp) as He.
  unfold binary_round_aux.
  destruct (shr_fexp prec emax (Zpos p) e loc_Exact) as [mrs1 e1] eqn:E1.
  apply (shr_fexp_le _ _ _ K) in E1 as (Hm1 & He1 & Hex1); [|lia..].
  set (m2 := round_nearest_even (shr_m mrs1) (loc_of_shr_record mrs1)).
  assert (Hm2 : 0 <= m2 <= 2 ^ (K - e1)).
  { pose proof (round_nearest_even_bounds (shr_m mrs1) (loc_of_shr_record mrs1)) as Hr.
    fold m2 in Hr. split; [lia|].
    destruct (decide (shr_m mrs1 = 2 ^ (K - e1))) as [Hfull|Hless]; [|lia].
    unfold m2. rewrite Hex1 by done. simpl. lia. }
  destruct (shr_fexp prec emax m2 e1 loc_Exact) as [mrs2 e2] eqn:E2.
  apply (shr_fexp_le _ _ _ K) in E2 as (Hm3 & He2 & _); [|lia..].
  destruct (shr_m mrs2) as [|q|q]; simpl; [done| |lia].
  change (emax - prec) with 971.
  destruct (Z.leb_spec e2 971); [|exfalso; lia]. simpl. split; [done|lia].
Qed.

(** ** Normalising a mantissa *)

Lemma pos_iter_xO (m d : positive) : Zpos (Pos.iter xO m d) = Zpos m * 2 ^ Zpos d.
Proof.
  apply (Pos.iter_ind _ xO m (λ d r, Zpos r = Zpos m * 2 ^ Zpos d)).
  - rewrite Z.pow_1_r. lia.
  - intros d' r Hr. rewrite Pos2Z.inj_succ, Z.pow_succ_r by lia.
    change (Zpos r~0) with (2 * Zpos r). lia.
Qed.

Lemma shl_align_spec (m : positive) (e e0 : Z) :
  Zpos (shl_align m e e0).1 = Zpos m * 2 ^ (e - (shl_align m e e0).2)
  ∧ (shl_align m e e0).2 <= e
  ∧ (e0 <= e → (shl_align m e e0).2 = e0).
Proof.
  unfold shl_align. destruct (e0 - e) as [|d|d] eqn:Hd; simpl.
  - rewrite Z.sub_diag. lia.
  - rewrite Z.sub_diag. lia.
  - rewrite pos_iter_xO. replace (e - e0) with (Zpos d) by lia. lia.
Qed.

Lemma binary_round_le (s : bool) (m : positive) (e K : Z) :
  Zpos m <= 2 ^ (K - e) → -1074 <= K <= 971 →
  signed_absle s K (binary_round prec emax s m e).
Proof.
  intros Hm HK. pose proof (pow2_bound_nonneg _ _ Hm) as He.
  unfold binary_round.
  destruct (shl_align_spec m e (fexp prec emax (Zpos (digits2_pos m) + e)))
    as (Hval & Hle & _).
  destruct (shl_align m e _) as [mz ez]. simpl in Hval, Hle.
  apply binary_round_aux_le; [|done].
  rewrite Hval. replace (K - ez) with ((K - e) + (e - ez)) by lia.
  rewrite Z.pow_add_r by lia.
  apply Z.mul_le_mono_nonneg_r; [apply Z.pow_nonneg|]; lia.
Qed.

Lemma signed_absle_absle (s : bool) (K : Z) (x : binary64) :
  signed_absle s K x → absle K x.
Proof. destruct x; simpl; try done. by intros [_ Hm]. Qed.

Lemma signed_absle_nonneg (K : Z) (x : binary64) :
  signed_absle false K x → nonneg x = true.
Proof. destruct x as [[]| | |[] ? ?]; simpl; try done. by intros [? _]. Qed.

Lemma binary_normalize_le (m e : Z) (sz : bool) (K : Z) :
  Z.abs m <= 2 ^ (K - e) → -1074 <= K <= 971 →
  absle K (binary_normalize prec emax m e sz).
Proof.
  intros Hm HK. destruct m as [|p|p]; simpl; [done|..];
    eapply signed_absle_absle, binary_round_le; done.
Qed.

Lemma binary_normalize_nonneg (m e : Z) (K : Z) :
  0 <= m <= 2 ^ (K - e) → -1074 <= K <= 971 →
  nonneg (binary_normalize prec emax m e false) = true.
Proof.
  intros Hm HK. destruct m as [|p|p]; simpl; [done| |lia].
  eapply signed_absle_nonneg, binary_round_le; [|done]. lia.
Qed.

(** ** Bounds through the operations *)

Lemma absle_mono (a b : Z) (x : binary64) : a <= b → absle a x → absle b x.
Proof.
  intros Hab. destruct x as [| | |s m e]; simpl; try done.
  intros Hm. pose proof (pow2_bound_nonneg _ _ Hm).
  etrans; [exact Hm|]. apply Z.pow_le_mono_r; lia.
Qed.

Lemma absle_finite (K : Z) (x : binary64) : absle K x → is_finite x = true.
Proof. by destruct x. Qed.

Lemma absleb_spec (K : Z) (x : binary64) : absleb K x = true → absle K x.
Proof. destruct x; simpl; try done. apply Z.leb_le. Qed.

Lemma SFopp_le (K : Z) (x : binary64) : absle K x → absle K (SFopp x).
Proof. by destruct x. Qed.

Lemma SFmul_le (a b : Z) (x y : binary64) :
  absle a x → absle b y → -1074 <= a + b <= 971 →
  absle (a + b) (SFmul prec emax x y).
Proof.
  intros Hx Hy HK.
  destruct x as [sx| | |sx mx ex], y as [sy| | |sy my ey]; simpl in *; try done.
  eapply signed_absle_absle, binary_round_aux_le; [|done].
  pose proof (pow2_bound_nonneg _ _ Hx). pose proof (pow2_bound_nonneg _ _ Hy).
  replace (a + b - (ex + ey)) with ((a - ex) + (b - ey)) by lia.
  rewrite Z.pow_add_r, Pos2Z.inj_mul by lia.
  apply Z.mul_le_mono_nonneg; lia.
Qed.

Lemma SFmul_nonneg (a b : Z) (x y : binary64) :
  absle a x → absle b y → -1074 <= a + b <= 971 →
  nonneg x = true → nonneg y = true →
  nonneg (SFmul prec emax x y) = true.
Proof.
  intros Hx Hy HK Hnx Hny.
  destruct x as [[]| | |[] mx ex], y as [[]| | |[] my ey]; simpl in *; try done.
  eapply signed_absle_nonneg, (binary_round_aux_le _ _ _ (a + b)); [|done].
  pose proof (pow2_bound_nonneg _ _ Hx). pose proof (pow2_bound_nonneg _ _ Hy).
  replace (a + b - (ex + ey)) with ((a - ex) + (b - ey)) by lia.
  rewrite Z.pow_add_r, Pos2Z.inj_mul by lia.
  apply Z.mul_le_mono_nonneg; lia.
Qed.

(** The two mantissas of a sum, aligned on the smaller exponent. *)
Lemma aligned_le (a : Z) (m : positive) (e ez : Z) :
  Zpos m <= 2 ^ (a - e) → ez <= e →
  0 < Zpos (shl_align m e ez).1 <= 2 ^ (a - ez).
Proof.
  intros Hm Hez. pose proof (pow2_bound_nonneg _ _ Hm).
  destruct (shl_align_spec m e ez) as (Hval & _ & Hsnd).
  rewrite Hval, Hsnd by done. split; [lia|].
  replace (a - ez) with ((a - e) + (e - ez)) by lia.
  rewrite Z.pow_add_r by lia.
  apply Z.mul_le_mono_nonneg_r; [apply Z.pow_nonneg|]; lia.
Qed.

Lemma pow2_sum_le (a b ez : Z) :
  0 <= a - ez → 0 <= b - ez →
  2 ^ (a - ez) + 2 ^ (b - ez) <= 2 ^ (Z.max a b + 1 - ez).
Proof.
  intros Ha Hb.
  replace (Z.max a b + 1 - ez) with (Z.succ (Z.max a b - ez)) by lia.
  rewrite Z.pow_succ_r by lia.
  assert (2 ^ (a - ez) <= 2 ^ (Z.max a b - ez)) by (apply Z.pow_le_mono_r; lia).
  assert (2 ^ (b - ez) <= 2 ^ (Z.max a b - ez)) by (apply Z.pow_le_mono_r; lia).
  lia.
Qed.

Lemma SFadd_le (a b : Z) (x y : binary64) :
  absle a x → absle b y → -1074 <= Z.max a b + 1 <= 971 →
  absle (Z.max a b + 1) (SFadd prec emax x y).
Proof.
  intros Hx Hy HK.
  destruct x as [sx| | |sx mx ex], y as [sy| | |sy my ey]; simpl in Hx, Hy; try done.
  - simpl. by destruct sx, sy.
  - apply (absle_mono b); [lia|exact Hy].
  - apply (absle_mono a); [lia|exact Hx].
  - unfold SFadd.
    pose proof (aligned_le a mx ex (Z.min ex ey) Hx ltac:(lia)) as Hmx.
    pose proof (aligned_le b my ey (Z.min ex ey) Hy ltac:(lia)) as Hmy.
    pose proof (pow2_bound_nonneg _ _ Hx). pose proof (pow2_bound_nonneg _ _ Hy).
    pose proof (pow2_sum_le a b (Z.min ex ey) ltac:(lia) ltac:(lia)).
    apply binary_normalize_le; [|done].
    destruct sx, sy; simpl cond_Zopp; lia.
Qed.

Lemma SFsub_le (a b : Z) (x y : binary64) :
  absle a x → absle b y → -1074 <= Z.max a b + 1 <= 971 →
  absle (Z.max a b + 1) (SFsub prec emax x y).
Proof.
  intros Hx Hy HK.
  destruct x as [sx| | |sx mx ex], y as [sy| | |sy my ey]; simpl in Hx, Hy; try done.
  - simpl. by destruct sx, sy.
  - apply (absle_mono b); [lia|exact Hy].
  - apply (absle_mono a); [lia|exact Hx].
  - unfold SFsub.
    pose proof (aligned_le a mx ex (Z.min ex ey) Hx ltac:(lia)) as Hmx.
    pose proof (aligned_le b my ey (Z.min ex ey) Hy ltac:(lia)) as Hmy.
    pose proof (pow2_bound_nonneg _ _ Hx). pose proof (pow2_bound_nonneg _ _ Hy).
    pose proof (pow2_sum_le a b (Z.min ex ey) ltac:(lia) ltac:(lia)).
    apply binary_normalize_le; [|done].
    destruct sx, sy; simpl cond_Zopp; lia.
Qed.

(** [t - 1] for [0 <= t <= 2] is within [-1, 1]. *)
Lemma SFsub_one_le (t : binary64) :
  nonneg t = true → absle 1 t → absle 0 (SFsub prec emax t (of_Z 1)).
Proof.
  intros Hn Ht. change (of_Z 1) with (S754_finite false 4503599627370496 (-52)).
  destruct t as [s| | |[] m e]; simpl in Hn, Ht; try done.
  unfold SFsub.
    pose proof (aligned_le 1 m e (Z.min e (-52)) Ht ltac:(lia)) as Hm.
    pose proof (aligned_le 0 4503599627370496 (-52) (Z.min e (-52)) ltac:(by vm_compute) ltac:(lia)) as Hone.
    destruct (shl_align_spec 4503599627370496 (-52) (Z.min e (-52))) as (Hval & _ & Hsnd).
    rewrite Hsnd in Hval by lia.
    assert (Hone' : Zpos (shl_align 4503599627370496 (-52) (Z.min e (-52))).1
                    = 2 ^ (0 - Z.min e (-52))).
    { rewrite Hval. change 4503599627370496 with (2 ^ 52).
      rewrite <- Z.pow_add_r by lia. f_equal. lia. }
    assert (2 ^ (1 - Z.min e (-52)) = 2 * 2 ^ (0 - Z.min e (-52))).
    { rewrite <- Z.pow_succ_r by lia. f_equal. lia. }
    apply binary_normalize_le; [|lia].
    simpl cond_Zopp. lia.
Qed.

Lemma floor_le (K : Z) (x : binary64) :
  absle K x → 0 <= K <= 971 → absle K (floor x).
Proof.
  intros Hx HK. destruct x as [| | |s m e]; simpl in *; try done.
  destruct (Z.leb_spec 0 e); [done|].
  pose proof (pow2_bound_nonneg _ _ Hx).
  assert (0 < 2 ^ (- e)) by (apply pow2_pos; lia).
  assert (Hpow : 2 ^ (K - e) = 2 ^ (- e) * 2 ^ K).
  { rewrite <- Z.pow_add_r by lia. f_equal. lia. }
  assert (0 < 2 ^ K) by (apply pow2_pos; lia).
  apply binary_normalize_le; [|lia].
  rewrite Z.shiftr_div_pow2, Z.sub_0_r by lia.
  destruct s; simpl cond_Zopp.
  - assert (- 2 ^ K <= Zneg m / 2 ^ (- e)) by (apply Z.div_le_lower_bound; lia).
    assert (Zneg m / 2 ^ (- e) < 0) by (apply Z.div_lt_upper_bound; lia).
    lia.
  - assert (Zpos m / 2 ^ (- e) <= 2 ^ K) by (apply Z.div_le_upper_bound; lia).
    assert (0 <= Zpos m / 2 ^ (- e)) by (apply Z.div_pos; lia).
    lia.
Qed.

Lemma absgeb_spec (k : Z) (x : binary64) : absgeb k x = true → absge k x.
Proof.
  destruct x as [| | |s m e]; simpl; try done.
  intros H. apply andb_prop in H as [H1 H2]. split; [by apply Z.leb_le|by apply Z.leb_le].
Qed.

(** Rounding a mantissa with any location: one more bit of slack. *)
Lemma binary_round_aux_le_any (s : bool) (m e : Z) (l : location) (K : Z) :
  0 <= m <= 2 ^ (K - e) → e <= K → -1074 <= K <= 970 →
  signed_absle s (K + 1) (binary_round_aux prec emax s m e l).
Proof.
  intros Hm He HK. unfold binary_round_aux.
  destruct (shr_fexp prec emax m e l) as [mrs1 e1] eqn:E1.
  apply (shr_fexp_le _ _ _ K) in E1 as (Hm1 & He1 & _); [|lia..].
  set (m2 := round_nearest_even (shr_m mrs1) (loc_of_shr_record mrs1)).
  assert (Hm2 : 0 <= m2 <= 2 ^ (K + 1 - e1)).
  { pose proof (round_nearest_even_bounds (shr_m mrs1) (loc_of_shr_record mrs1)) as Hr.
    fold m2 in Hr.
    replace (K + 1 - e1) with (Z.succ (K - e1)) by lia.
    rewrite Z.pow_succ_r by lia.
    assert (0 < 2 ^ (K - e1)) by (apply pow2_pos; lia). lia. }
  destruct (shr_fexp prec emax m2 e1 loc_Exact) as [mrs2 e2] eqn:E2.
  apply (shr_fexp_le _ _ _ (K + 1)) in E2 as (Hm3 & He2 & _); [|lia..].
  destruct (shr_m mrs2) as [|q|q]; simpl; [done| |lia].
  change (emax - prec) with 971.
  destruct (Z.leb_spec e2 971); [|exfalso; lia]. simpl. split; [done|lia].
Qed.

Lemma digits2_pos_lower (m : positive) (j : Z) :
  2 ^ j <= Zpos m → j < Zpos (digits2_pos m).
Proof.
  intros Hj. destruct (digits2_pos_bounds m) as [_ Hhi].
  destruct (Z.lt_ge_cases j (Zpos (digits2_pos m))) as [|Hge]; [done|].
  assert (2 ^ Zpos (digits2_pos m) <= 2 ^ j) by (apply Z.pow_le_mono_r; lia). lia.
Qed.

Lemma SFdiv_le (a b : Z) (x y : binary64) :
  absle a x → absge b y → -1074 <= a - b <= 970 →
  absle (a - b + 1) (SFdiv prec emax x y).
Proof.
  intros Hx Hy HK.
  destruct x as [sx| | |sx mx ex], y as [sy| | |sy my ey]; simpl in Hx, Hy; try done.
  destruct Hy as [Hy Hey]. pose proof (pow2_bound_nonneg _ _ Hx) as Hex.
  unfold SFdiv, SFdiv_core_binary. rewrite fexp_eq.
  pose proof (Zdigits2_le (Zpos mx) (a - ex) Hex ltac:(lia)) as Hd1.
  pose proof (digits2_pos_lower my (b - ey) Hy) as Hd2.
  cbn [Zdigits2] in *.
  set (d1 := Zpos (digits2_pos mx)) in *. set (d2 := Zpos (digits2_pos my)) in *.
  set (e' := Z.min (Z.max (d1 + ex - (d2 + ey) - 53) (-1074)) (ex - ey)).
  assert (He' : e' <= a - b) by lia.
  assert (Hs : 0 <= ex - ey - e') by lia.
  set (m' := match ex - ey - e' with
             | 0 => Zpos mx | Zpos _ => Z.shiftl (Zpos mx) (ex - ey - e') | Zneg _ => 0
             end).
  assert (Hm' : m' = Zpos mx * 2 ^ (ex - ey - e')).
  { unfold m'. destruct (ex - ey - e') as [|p|p] eqn:Hp; [simpl; lia| |lia].
    by rewrite Z.shiftl_mul_pow2 by lia. }
  clearbody m'.
  destruct (Z.div_eucl m' (Zpos my)) as [q r] eqn:Hdiv.
  assert (Hq : q = m' / Zpos my) by (unfold Z.div; by rewrite Hdiv).
  eapply signed_absle_absle, binary_round_aux_le_any; [|lia|lia].
  assert (0 <= m') by (rewrite Hm'; apply Z.mul_nonneg_nonneg; [lia|apply Z.pow_nonneg; lia]).
  split; [rewrite Hq; apply Z.div_pos; lia|].
  rewrite Hq. apply Z.div_le_upper_bound; [lia|].
  (* m' <= my * 2^(K - e') *)
  assert (Hup : m' <= 2 ^ (a - ex) * 2 ^ (ex - ey - e')).
  { rewrite Hm'. apply Z.mul_le_mono_nonneg_r; [apply Z.pow_nonneg; lia|lia]. }
  assert (Hlow : 2 ^ (b - ey) * 2 ^ (a - b - e') <= Zpos my * 2 ^ (a - b - e')).
  { apply Z.mul_le_mono_nonneg_r; [apply Z.pow_nonneg; lia|lia]. }
  rewrite <- Z.pow_add_r in Hup by lia. rewrite <- Z.pow_add_r in Hlow by lia.
  replace (a - ex + (ex - ey - e')) with (b - ey + (a - b - e')) in Hup by lia.
  lia.
Qed.

Lemma rem_le (a : Z) (x y : binary64) :
  absle a x → is_finite y = true → SFeqb y (of_Z 0) = false →
  -1074 <= a <= 971 → absle a (rem x y).
Proof.
  intros Hx Hy Hy0 HK.
  destruct x as [sx| | |sx mx ex], y as [sy| | |sy my ey]; simpl in Hx, Hy, Hy0; try done.
  unfold rem.
  pose proof (aligned_le a mx ex (Z.min ex ey) Hx ltac:(lia)) as Hmx.
  set (X := Zpos (shl_align mx ex (Z.min ex ey)).1) in *.
  set (Y := Zpos (shl_align my ey (Z.min ex ey)).1).
  assert (HY : 0 < Y) by (unfold Y; lia).
  pose proof (Z.rem_bound_pos X Y ltac:(lia) HY) as Hrem.
  assert (Z.rem X Y <= X).
  { rewrite Z.rem_mod_nonneg by lia. apply Z.mod_le; lia. }
  apply binary_normalize_le; [|done].
  destruct sx; simpl cond_Zopp; lia.
Qed.

Lemma of_Z_le (K z : Z) :
  Z.abs z <= 2 ^ K → -1074 <= K <= 971 → absle K (of_Z z).
Proof.
  intros Hz HK. apply binary_normalize_le; [|done]. by rewrite Z.sub_0_r.
Qed.

Lemma of_Z_nonneg (K z : Z) :
  0 <= z <= 2 ^ K → -1074 <= K <= 971 → nonneg (of_Z z) = true.
Proof.
  intros Hz HK. apply (binary_normalize_nonneg _ _ K); [|done]. by rewrite Z.sub_0_r.
Qed.

Lemma SFsqrt_le (a : Z) (x : binary64) :
  absle a x → nonneg x = true → -1074 <= a <= 971 →
  absle ((a + 1) / 2 + 1) (SFsqrt prec emax x).
Proof.
  intros Hx Hn HK.
  destruct x as [sx| | |[] m e]; simpl in Hx, Hn; try done.
  pose proof (pow2_bound_nonneg _ _ Hx) as Hex.
  unfold SFsqrt, SFsqrt_core_binary. rewrite fexp_eq.
  pose proof (Zdigits2_le (Zpos m) (a - e) Hex ltac:(lia)) as Hd.
  cbn [Zdigits2] in *. set (d := Zpos (digits2_pos m)) in *.
  rewrite !Z.div2_div.
  set (K := (a + 1) / 2).
  assert (HKa : a <= 2 * K <= a + 1).
  { unfold K. pose proof (Z.div_mod (a + 1) 2 ltac:(lia)).
    pose proof (Z.mod_pos_bound (a + 1) 2 ltac:(lia)). lia. }
  set (e' := Z.min (Z.max ((d + e + 1) / 2 - 53) (-1074)) (e / 2)).
  assert (He2 : 2 * (e / 2) <= e).
  { pose proof (Z.div_mod e 2 ltac:(lia)). pose proof (Z.mod_pos_bound e 2 ltac:(lia)). lia. }
  assert (Hde : (d + e + 1) / 2 <= K + 1).
  { apply Z.div_le_upper_bound; lia. }
  assert (He' : e' <= K) by lia.
  assert (Hs : 0 <= e - 2 * e') by lia.
  set (m' := match e - 2 * e' with
             | 0 => Zpos m | Zpos _ => Z.shiftl (Zpos m) (e - 2 * e') | Zneg _ => 0
             end).
  assert (Hm' : m' = Zpos m * 2 ^ (e - 2 * e')).
  { unfold m'. destruct (e - 2 * e') as [|p|p] eqn:Hp; [simpl; lia| |lia].
    by rewrite Z.shiftl_mul_pow2 by lia. }
  clearbody m'.
  assert (Hm0 : 0 <= m') by (rewrite Hm'; apply Z.mul_nonneg_nonneg; [lia|apply Z.pow_nonneg; lia]).
  pose proof (Z.sqrtrem_spec m' Hm0) as Hspec.
  destruct (Z.sqrtrem m') as [q r]. destruct Hspec as [Hqr Hr].
  eapply signed_absle_absle, binary_round_aux_le_any; [|lia|lia].
  assert (Hup : m' <= 2 ^ (K - e') * 2 ^ (K - e')).
  { rewrite Hm', <- Z.pow_add_r by lia.
    etrans; [apply Z.mul_le_mono_nonneg_r; [apply Z.pow_nonneg; lia|exact Hx]|].
    rewrite <- Z.pow_add_r by lia. apply Z.pow_le_mono_r; lia. }
  assert (0 < 2 ^ (K - e')) by (apply pow2_pos; lia).
  assert (0 <= q) by nia.
  split; [done|]. nia.
Qed.

End IEEEFacts.

(* ===================================================================== *)
(** * The target tables are finite                                        *)
(* ===================================================================== *)

Module FiniteTargets.
Import IEEE IEEEFacts.

Lemma below_forallb (P : nat → bool) (n : nat) :
  forallb P (seq 0 n) = true → ∀ i, (i < n)%nat → P i = true.
Proof.
  intros Hall i Hi. rewrite forallb_forall in Hall. apply Hall, in_seq. lia.
Qed.

(** A draw in [[0, 1)]. *)
Lemma unit_draw (x : binary64) :
  valid_binary prec emax x = true → SFleb (of_Z 0) x = true →
  SFltb x (of_Z 1) = true →
  nonneg x = true ∧ absle 0 x.
Proof.
  change (of_Z 0) with (S754_zero false).
  change (of_Z 1) with (S754_finite false 4503599627370496 (-52)).
  destruct x as [s|s| |s m e]; try done.
  - by destruct s.
  - intros Hv H0 H1. destruct s; [done|]. split; [done|].
    unfold valid_binary, bounded, canonical_mantissa in Hv.
    apply andb_prop in Hv as [Hcan _]. apply Z.eqb_eq in Hcan.
    rewrite fexp_eq in Hcan.
    unfold SFltb, SFcompare in H1. unfold absle.
    destruct (digits2_pos_bounds m) as [_ Hhi].
    destruct (Z.compare_spec e (-52)) as [->|Hlt'|Hgt]; [| |done].
    + destruct (Pos.compare_cont Eq m 4503599627370496) eqn:Hc; try done.
      assert (Zpos m < Zpos 4503599627370496)
        by (apply Pos.compare_lt_iff; exact Hc).
      clear Hc H1.
      change (2 ^ (0 - -52)) with (Zpos 4503599627370496). lia.
    + assert (Zpos (digits2_pos m) <= 53) by lia.
      assert (2 ^ Zpos (digits2_pos m) <= 2 ^ 53) by (apply Z.pow_le_mono_r; lia).
      assert (2 ^ 53 <= 2 ^ (0 - e)) by (apply Z.pow_le_mono_r; lia). lia.
Qed.

Section Engine.
Variables host_cos host_sin host_acos host_exp : binary64 → binary64.
Variable host_pow : binary64 → binary64 → binary64.
Variable random : nat → binary64.
Variables gold white : Color binary64.
Hypothesis ranges : engine_ranges host_cos host_sin host_acos host_pow.
Hypothesis draws : unit_draws random.

#[local] Hint Extern 0 (JSNumber binary64) =>
  exact (number host_cos host_sin host_acos host_exp host_pow) : typeclass_instances.

Local Open Scope js_scope.

Lemma mul_le (a b : Z) (x y : binary64) :
  absle a x → absle b y → (-1074 <= a + b <= 971)%Z → absle (a + b) (x * y).
Proof. apply SFmul_le. Qed.

Lemma add_le (a b : Z) (x y : binary64) :
  absle a x → absle b y → (-1074 <= Z.max a b + 1 <= 971)%Z →
  absle (Z.max a b + 1) (x + y).
Proof. apply SFadd_le. Qed.

Lemma sub_le (a b : Z) (x y : binary64) :
  absle a x → absle b y → (-1074 <= Z.max a b + 1 <= 971)%Z →
  absle (Z.max a b + 1) (x - y).
Proof. apply SFsub_le. Qed.

Lemma div_le (a b : Z) (x y : binary64) :
  absle a x → absge b y → (-1074 <= a - b <= 970)%Z →
  absle (a - b + 1) (x / y).
Proof. apply SFdiv_le. Qed.

Lemma fmod_le (a : Z) (x y : binary64) :
  absle a x → is_finite y = true → SFeqb y (of_Z 0) = false →
  (-1074 <= a <= 971)%Z → absle a (x mod y).
Proof. apply rem_le. Qed.

Lemma sqrt_le (a : Z) (x : binary64) :
  absle a x → nonneg x = true → (-1074 <= a <= 971)%Z →
  absle ((a + 1) / 2 + 1) (Math_sqrt x).
Proof. apply SFsqrt_le. Qed.

Lemma floor_bound (K : Z) (x : binary64) :
  absle K x → (0 <= K <= 971)%Z → absle K (Math_floor x).
Proof. apply floor_le. Qed.

(** An index below 2048 is within [2^11] as a number. *)
Lemma idx_le (i : nat) : (i < 2048)%nat → absle 11 (idx i).
Proof. intros Hi. apply of_Z_le; [|lia]. change (2 ^ 11)%Z with 2048%Z. lia. Qed.

Lemma idx_nonneg (i : nat) : (i < 2048)%nat → nonneg (idx i) = true.
Proof. intros Hi. apply (of_Z_nonneg 11); [|lia]. change (2 ^ 11)%Z with 2048%Z. lia. Qed.

Lemma cos_le (x : binary64) : is_finite x = true → absle 0 (Math_cos x).
Proof. apply ranges. Qed.

Lemma sin_le (x : binary64) : is_finite x = true → absle 0 (Math_sin x).
Proof. apply ranges. Qed.

Lemma pow_le (x : binary64) :
  nonneg x = true → absle 0 x → absle 0 (Math_pow x (dec 15 1)).
Proof. apply ranges. Qed.

Lemma random_le (k : nat) : absle 0 (random k).
Proof. destruct (draws k) as (Hv & H0 & H1). by apply unit_draw. Qed.

Lemma random_nonneg (k : nat) : nonneg (random k) = true.
Proof. destruct (draws k) as (Hv & H0 & H1). by apply unit_draw. Qed.

(** The argument [2 r - 1] of [Math.acos] is within [-1, 1]. *)
Lemma acos_le (k : nat) : absle 2 (Math_acos (lit 2 * random k - lit 1)).
Proof.
  apply ranges. apply SFsub_one_le.
  - apply (SFmul_nonneg 1 0); [by vm_compute|apply random_le|lia|done|apply random_nonneg].
  - apply (SFmul_le 1 0); [by vm_compute|apply random_le|lia].
Qed.

(** The range of a bound, once the bounds of the operands are known. *)
Ltac range := first [ lia | vm_compute; split; discriminate ].

(** A bound for an expression, by the structure of the expression:
    facts of the context first, then the operation at the head, then
    the value of a closed literal. *)
Ltac bound :=
  first
  [ eassumption
  | lazymatch goal with
    | |- absle _ (random _) => apply random_le
    | |- absle _ (idx ?i) =>
        first [ apply idx_le; simpl; lia
              | let k := eval vm_compute in (mag (idx i)) in
                apply (absleb_spec k (idx i)); vm_compute; reflexivity ]
    | |- absle _ (Math_acos (lit 2 * random _ - lit 1)) => apply acos_le
    | |- absle _ (Math_cos _) => apply cos_le; finite
    | |- absle _ (Math_sin _) => apply sin_le; finite
    | |- absle _ (Math_floor _) => eapply floor_bound; [bound|range]
    | |- absle _ (Math_sqrt _) =>
        eapply sqrt_le; [bound|apply idx_nonneg; simpl; lia|range]
    | |- absle _ (_ * _) => eapply mul_le; [bound|bound|range]
    | |- absle _ (_ + _) => eapply add_le; [bound|bound|range]
    | |- absle _ (_ - _) => eapply sub_le; [bound|bound|range]
    | |- absle _ (_ / _) => eapply div_le; [bound|below|range]
    | |- absle _ (_ mod _) =>
        eapply fmod_le; [bound|vm_compute; reflexivity|vm_compute; reflexivity|range]
    | |- absle _ ?c =>
        let k := eval vm_compute in (mag c) in
        apply (absleb_spec k c); vm_compute; reflexivity
    end ]
with below :=
  lazymatch goal with
  | |- absge _ ?c =>
      let k := eval vm_compute in (mag c - 1)%Z in
      apply (absgeb_spec k c); vm_compute; reflexivity
  end
with finite :=
  first [ eassumption | eapply absle_finite; bound ].

Ltac finite_triple := unfold all_finite; cbn [triple]; repeat constructor; finite.

Lemma graph_finite (c : nat) : all_finite (triple (graph_point random c)).
Proof. unfold graph_point. finite_triple. Qed.

Lemma orbit_finite (c : nat) : all_finite (triple (orbit_point random c)).
Proof. unfold orbit_point. cbv zeta. finite_triple. Qed.

Lemma threebody_finite (c i : nat) : all_finite (triple (threebody_point random c i)).
Proof.
  unfold threebody_point. cbv zeta.
  destruct (_ =? lit 0); [|destruct (_ =? lit 1)]; finite_triple.
Qed.

Lemma nash_finite (c : nat) : all_finite (triple (nash_point random c)).
Proof. unfold nash_point. cbv zeta. finite_triple. Qed.

Lemma series_finite (c : nat) : all_finite (triple (series_point random c)).
Proof. unfold series_point. cbv zeta. finite_triple. Qed.

(** [timeRatio] is checked index by index, for the two particle counts
    of the page. *)
Lemma timeRatio_unit (mobile : bool) (i : nat) :
  (i < particleCount_of mobile)%nat →
  nonneg (timeRatio (particleCount_of mobile) i) = true
  ∧ absle 0 (timeRatio (particleCount_of mobile) i).
Proof.
  intros Hi.
  assert (Hc : timeRatio_in_unit host_cos host_sin host_acos host_exp host_pow
                 (particleCount_of mobile) i = true).
  { revert i Hi. apply below_forallb. destruct mobile; vm_compute; reflexivity. }
  unfold timeRatio_in_unit in Hc. cbv zeta in Hc.
  apply andb_prop in Hc as [Hn Hb]. split; [done|by apply absleb_spec].
Qed.

Section Count.
Variable mobile : bool.
Variable i : nat.
Hypothesis Hi : (i < particleCount_of mobile)%nat.

Lemma matrix_finite : all_finite (triple (matrix_point i)).
Proof. destruct mobile; simpl in Hi; unfold matrix_point; cbv zeta; finite_triple. Qed.

Lemma neural_finite (c : nat) : all_finite (triple (neural_point random c i)).
Proof. destruct mobile; simpl in Hi; unfold neural_point; cbv zeta; finite_triple. Qed.

Lemma quant_finite (c : nat) :
  all_finite (triple (quant_point random (particleCount_of mobile) c i)).
Proof.
  destruct (timeRatio_unit mobile i Hi) as [Hn Hb].
  assert (absle 0 (Math_pow (timeRatio (particleCount_of mobile) i) (dec 15 1)))
    by (by apply pow_le).
  destruct mobile; simpl in Hi; unfold quant_point, volatility, quantX; cbv zeta;
    finite_triple.
Qed.

Lemma golden_finite : all_finite (triple (golden_point (particleCount_of mobile) i)).
Proof.
  destruct mobile; simpl in Hi;
    unfold golden_point, golden_theta, golden_radius, golden_phi; cbv zeta;
    finite_triple.
Qed.

Lemma topology_finite : all_finite (triple (topology_point (particleCount_of mobile) i)).
Proof.
  destruct mobile; simpl in Hi;
    unfold topology_point, topology_u, topology_v; cbv zeta; finite_triple.
Qed.

Lemma calculus_finite : all_finite (triple (calculus_point (particleCount_of mobile) i)).
Proof.
  destruct mobile; simpl in Hi;
    unfold calculus_point, calculus_cU, calculus_cV; cbv zeta; finite_triple.
Qed.

End Count.

Lemma lorenz_table_finite_eq (n : nat) :
  lorenz_table_finite host_cos host_sin host_acos host_exp host_pow n
  = forallb is_finite (lorenz_from (dec 1 1, lit 0, lit 0) n).
Proof. reflexivity. Qed.

(** The Lorenz table is evaluated step by step, once, for the larger of
    the two particle counts; the table of the smaller count is a prefix
    of it. *)
Lemma lorenz_finite_1500 :
  all_finite (table (λ i, lorenz_point (lorenz_state (S i))) 1500).
Proof.
  unfold lorenz_state. rewrite <- lorenz_from_spec.
  apply Forall_forall. intros v Hv. apply list_elem_of_In in Hv. revert v Hv.
  apply forallb_forall. rewrite <- lorenz_table_finite_eq.
  vm_compute. reflexivity.
Qed.

Lemma lorenz_finite (mobile : bool) :
  all_finite (table (λ i, lorenz_point (lorenz_state (S i))) (particleCount_of mobile)).
Proof.
  destruct mobile; [|apply lorenz_finite_1500].
  change (particleCount_of true) with 800%nat.
  rewrite <- (table_take _ 1500 800) by lia.
  apply Forall_take, lorenz_finite_1500.
Qed.

(** C1. For each of the twelve modes and for the particle count that the
    page configures (800 on a small viewport, 1500 otherwise), the target
    buffer that [createParticles] generates has exactly [3 N] entries and
    every entry is a finite double; this covers the Lorenz table, which
    is integrated step by step.  The engine is assumed to return
    [Math.random] in [[0, 1)] and cosines, sines, arc cosines and powers
    within their mathematical ranges. *)
Theorem targets_sized_and_finite (isMobile : bool) (mode : string) :
  mode ∈ modes →
  ∃ buffer : list binary64,
    target_of (targets (createParticles random gold white (particleCount_of isMobile))) mode
    = Some buffer
    ∧ length buffer = (3 * particleCount_of isMobile)%nat
    ∧ all_finite buffer.
Proof.
  intros Hmode. rewrite createParticles_targets.
  unfold modes in Hmode. rewrite !elem_of_cons, elem_of_nil in Hmode.
  repeat (destruct Hmode as [->|Hmode];
    [eexists; split; [reflexivity|]; split; [apply length_table|]|]); [..|done].
  - apply Forall_table; intros i Hi. by apply graph_finite.
  - apply Forall_table; intros i Hi. by apply orbit_finite.
  - apply Forall_table; intros i Hi. eapply matrix_finite; eassumption.
  - apply Forall_table; intros i Hi. by apply threebody_finite.
  - apply Forall_table; intros i Hi. eapply neural_finite; eassumption.
  - apply Forall_table; intros i Hi. eapply quant_finite; eassumption.
  - apply Forall_table; intros i Hi. by apply nash_finite.
  - apply lorenz_finite.
  - apply Forall_table; intros i Hi. eapply golden_finite; eassumption.
  - apply Forall_table; intros i Hi. eapply topology_finite; eassumption.
  - apply Forall_table; intros i Hi. eapply calculus_finite; eassumption.
  - apply Forall_table; intros i Hi. by apply series_finite.
Qed.

End Engine.

Lemma flat_ranges : engine_ranges flat_cos flat_sin flat_acos flat_pow.
Proof.
  repeat split; intros x; intros; try assumption; vm_compute; congruence.
Qed.

Lemma zero_draws : unit_draws (λ _, of_Z 0).
Proof. intros k. vm_compute. repeat split. Qed.

Lemma targets_sized_and_finite_witness :
  ∃ buffer : list binary64,
    target_of
      (targets (createParticles (H := flat_number) (λ _, of_Z 0)
                  {| r := of_Z 1; g := of_Z 1; b := of_Z 1 |}
                  {| r := of_Z 1; g := of_Z 1; b := of_Z 1 |}
                  (particleCount_of true))) "lorenz"
    = Some buffer
    ∧ length buffer = (3 * particleCount_of true)%nat
    ∧ all_finite buffer.
Proof.
  apply (targets_sized_and_finite flat_cos flat_sin flat_acos flat_exp flat_pow
           (λ _, of_Z 0) _ _ flat_ranges zero_draws true "lorenz").
  unfold modes. rewrite !elem_of_cons. tauto.
Defined.

End FiniteTargets.

(* ===================================================================== *)
(** * The properties of the specification                                 *)
(* ===================================================================== *)

Section GenericClaims.
Context {Num : Type} `{JSNumber Num}.
Local Open Scope nat_scope.

(** C2. The Lorenz table is integrated sequentially from one shared
    running point, so it has the prefix property: for [k < N], the first
    [3 k] entries of the Lorenz table of a run with [N] particles are
    exactly the Lorenz table of a run with [k] particles (whatever
    [Math.random] returns in the two runs). *)
Theorem lorenz_prefix (random random' : nat → Num) (gold white gold' white' : Color Num)
    (k N : nat) :
  k < N →
  take (3 * k) (lorenz (targets (createParticles random gold white N)))
  = lorenz (targets (createParticles random' gold' white' k)).
Proof.
  intros Hk. rewrite !createParticles_targets. cbn [lorenz tables].
  apply table_take. lia.
Qed.

(** C5. Every triple [(x, y, z)] of the nash table satisfies
    [y = (x * x - z * z) * 0.08] exactly, in the arithmetic of the
    engine: [y] is computed from the stored [x] and [z] and from nothing
    else. *)
Theorem nash_saddle_exact (random : nat → Num) (gold white : Color Num) (N i : nat) :
  i < N →
  ∃ x y z : Num,
    let t := nash (targets (createParticles random gold white N)) in
    t !! (3 * i) = Some x ∧ t !! (3 * i + 1) = Some y ∧ t !! (3 * i + 2) = Some z
    ∧ y = mul (sub (mul x x) (mul z z)) (dec 8 2).
Proof.
  intros Hi. rewrite createParticles_targets. cbn [nash tables].
  set (f := λ i, nash_point random (0 + 18 * i)).
  pose proof (table_lookup f N i 0 Hi ltac:(lia)) as E0.
  pose proof (table_lookup f N i 1 Hi ltac:(lia)) as E1.
  pose proof (table_lookup f N i 2 Hi ltac:(lia)) as E2.
  rewrite Nat.add_0_r in E0.
  exists (f i).1.1, (f i).1.2, (f i).2. cbv zeta. rewrite E0, E1, E2.
  by unfold f, nash_point.
Qed.

(** C8. For every mode other than neural, one call of [animate] leaves
    the colour array as it was, so that a particle that had its initial
    colour keeps it; in the neural mode the frame stores the colour of
    the pulse into the three slots of every particle. *)
Theorem colors_written_by_neural_only (mode : string) (inp : FrameInput) (sc : Scene) :
  (mode ≠ "neural" → color_array (animate mode inp sc) = color_array sc)
  ∧ (∀ i, i < particleCount inp → i * 3 + 2 < length (color_array sc) →
       let gl := glow (wavePos (mul (now inp) (dec 1 3))) (position_array sc) i in
       let colors := color_array (animate "neural" inp sc) in
       colors !! (i * 3) = Some (fround (add (dec 83 2) (mul (dec 17 2) gl)))
       ∧ colors !! (i * 3 + 1) = Some (fround (add (dec 68 2) (mul (dec 32 2) gl)))
       ∧ colors !! (i * 3 + 2) = Some (fround (add (dec 21 2) (mul (dec 79 2) gl)))).
Proof.
  split.
  - intros Hmode. rewrite animate_color_array.
    by rewrite (proj2 (String.eqb_neq mode "neural") Hmode).
  - intros i Hi Hlen. cbv zeta. rewrite animate_color_array. simpl String.eqb.
    by apply neural_pulse_lookup.
Qed.

(** C9. With a mode identifier outside the twelve known modes (such as
    ["limitless"]) the movement loop takes [(0, 0, 0)] as the target of
    every particle, so a frame eases every coordinate of every particle
    towards the origin by the fraction 0.04: [p] becomes
    [p + (0 - p) * 0.04], rounded to single precision by the store. *)
Theorem unknown_mode_eases_to_origin (mode : string) (inp : FrameInput) (sc : Scene)
    (i k : nat) :
  mode ∉ modes →
  i < particleCount inp → k < 3 → i * 3 + 2 < length (position_array sc) →
  target mode (frame_targets inp) (mul (now inp) (dec 1 3)) i = (lit 0, lit 0, lit 0)
  ∧ position_array (animate mode inp sc) !! (i * 3 + k)
    = Some (fround (add (get (position_array sc) (i * 3 + k))
                      (mul (sub (lit 0) (get (position_array sc) (i * 3 + k)))
                         (dec 4 2)))).
Proof.
  intros Hmode Hi Hk Hlen. split; [by apply target_unknown|].
  rewrite animate_position_array.
  apply (movement_lookup _ _ _ _ _ _ _ (lit 0)); [done..|].
  rewrite target_unknown by done. by destruct k as [|[|[|k]]]; [..|lia].
Qed.


End GenericClaims.

(** The generic properties at concrete data, in the arithmetic of the
    doubles. *)
Module Instances.
Import IEEE.

Lemma lorenz_prefix_witness :
  take (3 * 2)
    (lorenz (targets (createParticles (H := flat_number) (λ _, of_Z 0)
                        {| r := of_Z 1; g := of_Z 1; b := of_Z 1 |}
                        {| r := of_Z 1; g := of_Z 1; b := of_Z 1 |} 5)))
  = lorenz (targets (createParticles (H := flat_number) (λ _, of_decimal 5 1)
                       {| r := of_Z 1; g := of_Z 1; b := of_Z 1 |}
                       {| r := of_Z 1; g := of_Z 1; b := of_Z 1 |} 2)).
Proof. apply (lorenz_prefix (H := flat_number)). lia. Defined.

Lemma nash_saddle_exact_witness :
  ∃ x y z : binary64,
    let t := nash (targets (createParticles (H := flat_number) (λ _, of_decimal 25 2)
                              {| r := of_Z 1; g := of_Z 1; b := of_Z 1 |}
                              {| r := of_Z 1; g := of_Z 1; b := of_Z 1 |} 3)) in
    t !! (3 * 1)%nat = Some x ∧ t !! (3 * 1 + 1)%nat = Some y
    ∧ t !! (3 * 1 + 2)%nat = Some z
    ∧ y = SFmul prec emax (SFsub prec emax (SFmul prec emax x x) (SFmul prec emax z z))
            (of_decimal 8 2).
Proof. apply (nash_saddle_exact (H := flat_number)). lia. Defined.

Lemma unknown_mode_eases_to_origin_witness :
  let inp := {| now := of_Z 0; mouse := (of_Z 0, of_Z 0); isMobile := false;
                particleCount := 1; frame_targets := no_targets |} in
  let sc := {| position_array := [of_Z 1; of_Z 2; of_Z 3];
               color_array := [of_Z 1; of_Z 1; of_Z 1];
               color_needsUpdate := false; position_needsUpdate := false;
               camera_position := (of_Z 0, of_Z 8, of_Z 25);
               particles_rotation := (of_Z 0, of_Z 0, of_Z 0);
               lines_rotation := (of_Z 0, of_Z 0, of_Z 0);
               lines_visible := true; lines_position := [] |} in
  target (H := flat_number) "limitless" (frame_targets inp)
    (SFmul prec emax (now inp) (of_decimal 1 3)) 0
  = (of_Z 0, of_Z 0, of_Z 0)
  ∧ position_array (animate (H := flat_number) "limitless" inp sc) !! (0 * 3 + 1)%nat
    = Some (to_float32
              (SFadd prec emax (get (H := flat_number) (position_array sc) (0 * 3 + 1))
                 (SFmul prec emax
                    (SFsub prec emax (of_Z 0)
                       (get (H := flat_number) (position_array sc) (0 * 3 + 1)))
                    (of_decimal 4 2)))).
Proof.
  cbv zeta. apply (unknown_mode_eases_to_origin (H := flat_number)).
  - unfold modes. rewrite !not_elem_of_cons. repeat split; try discriminate.
    apply not_elem_of_nil.
  - simpl. lia.
  - lia.
  - simpl. lia.
Defined.

End Instances.

Module SwitcherClaims.
Import Switcher SwitcherFacts.
Local Open Scope N_scope.




(** C10 (amended). The mode switcher takes any string: for an
    identifier [m] that is neither one of the twelve keys of the
    description table nor a name that the table inherits from
    [Object.prototype], it still makes [m] the current mode, the lookup
    [VIZ_DESCRIPTIONS[m]] gives [undefined], and the callback that runs
    after the 500 ms delay hands [undefined] to the insight. *)
Theorem unknown_mode_has_no_description (p : Page) (m : string) (d : N) :
  clicked p → m ∉ modes → m ∉ Object_prototype → 500 <= d →
  vizMode (changeVizMode m p) = m
  ∧ config_mode (changeVizMode m p) = m
  ∧ VIZ_DESCRIPTIONS !! m = None
  ∧ get_member VIZ_DESCRIPTIONS m = undefined
  ∧ insight (elapse d (changeVizMode m p)) = undefined.
Proof.
  intros Hclicked Hm Hproto Hd.
  apply clicked_reachable, reachable_invariant in Hclicked.
  split; [done|]. split; [done|]. split; [by apply lookup_outside_modes|].
  split; [by apply member_outside|].
  rewrite insight_after_delay by done. by apply member_outside.
Qed.

(** C10 as stated fails at an identifier that the table inherits:
    [constructor] is outside the twelve keys, and the lookup gives the
    member of [Object.prototype], not [undefined]. *)
Lemma constructor_is_inherited :
  ("constructor" ∉ modes)
  ∧ get_member VIZ_DESCRIPTIONS "constructor" = inherited "constructor"
  ∧ get_member VIZ_DESCRIPTIONS "constructor" ≠ undefined
  ∧ insight (elapse 500 (changeVizMode "constructor" mount)) ≠ undefined.
Proof.
  split; [|split; [|split]].
  - unfold modes. rewrite !not_elem_of_cons. repeat split; try discriminate.
    apply not_elem_of_nil.
  - by vm_compute.
  - by vm_compute.
  - by vm_compute.
Qed.

Lemma unknown_mode_has_no_description_witness :
  vizMode (changeVizMode "limitless" mount) = "limitless"
  ∧ config_mode (changeVizMode "limitless" mount) = "limitless"
  ∧ VIZ_DESCRIPTIONS !! "limitless" = None
  ∧ get_member VIZ_DESCRIPTIONS "limitless" = undefined
  ∧ insight (elapse 500 (changeVizMode "limitless" mount)) = undefined.
Proof.
  apply (unknown_mode_has_no_description mount "limitless" 500).
  - apply clicked_mount.
  - unfold modes. rewrite !not_elem_of_cons. repeat split; try discriminate.
    apply not_elem_of_nil.
  - unfold Object_prototype. rewrite !not_elem_of_cons. repeat split; try discriminate.
    apply not_elem_of_nil.
  - lia.
Defined.

End SwitcherClaims.

Module IEEEClaims.
Import IEEE.

Section Engine.
Variables host_cos host_sin host_acos host_exp : binary64 → binary64.
Variable host_pow : binary64 → binary64 → binary64.

#[local] Hint Extern 0 (JSNumber binary64) =>
  exact (number host_cos host_sin host_acos host_exp host_pow) : typeclass_instances.

(** C3 (amended). In the line scan under the mode nash the squared
    distance of a pair is compared with the threshold 8 by a strict [<]:
    a pair at squared distance 9 gives no segment, and neither does a
    pair at squared distance exactly 8. *)
Theorem nash_threshold_is_strict (positions : list binary64) (i j : nat)
    (linePositions : list binary64) :
  distSq positions i j = lit 9 ∨ distSq positions i j = lit 8 →
  threshold "nash" = (lit 8 : binary64)
  ∧ emitted "nash" positions (i, j) = []
  ∧ check_pair "nash" positions i j linePositions = linePositions.
Proof.
  intros Hd. split; [done|].
  unfold check_pair, emitted. cbn [fst snd].
  destruct Hd as [-> | ->]; by vm_compute.
Qed.




End Engine.



(** C3 as stated fails: two particles that the scan pairs, at squared
    distance 9, under nash, and no segment between them. *)
Lemma nash_distance_9_emits_nothing :
  let positions := [of_Z 0; of_Z 0; of_Z 0; of_Z 3; of_Z 0; of_Z 0] in
  (0%nat, 1%nat) ∈ scanned_pairs 2 40 2
  ∧ distSq (H := flat_number) positions 0 1 = of_Z 9
  ∧ linePositions_of (H := flat_number) "nash" false 2 positions = []
  ∧ ¬ ∃ before after,
        linePositions_of (H := flat_number) "nash" false 2 positions
        = before ++ segment (H := flat_number) positions 0 1 ++ after.
Proof.
  cbv zeta. split; [|split; [|split]].
  - apply scanned_pairs_spec. simpl. lia.
  - by vm_compute.
  - by vm_compute.
  - intros (before & after & Heq).
    assert (Hnil : linePositions_of (H := flat_number) "nash" false 2
              [of_Z 0; of_Z 0; of_Z 0; of_Z 3; of_Z 0; of_Z 0] = []) by (by vm_compute).
    rewrite Hnil in Heq. by destruct before.
Qed.

Lemma nash_threshold_is_strict_witness :
  let positions := [of_Z 0; of_Z 0; of_Z 0; of_Z 3; of_Z 0; of_Z 0] in
  threshold (H := flat_number) "nash" = of_Z 8
  ∧ emitted (H := flat_number) "nash" positions (0%nat, 1%nat) = []
  ∧ check_pair (H := flat_number) "nash" positions 0 1 [] = [].
Proof.
  cbv zeta.
  apply (nash_threshold_is_strict flat_cos flat_sin flat_acos flat_exp flat_pow).
  left. by vm_compute.
Defined.

End IEEEClaims.

(* ===================================================================== *)
(** * Further properties of the generator                                 *)
(* ===================================================================== *)

Section GeneratorExtras.
Context {Num : Type} `{JSNumber Num}.
Variable random : nat → Num.
Variables gold white : Color Num.
Local Open Scope nat_scope.

(** Storing a triple into the first three free slots of a typed array
    that is filled up to slot [3 n]. *)
Lemma fill_slots (filled : list Num) (n m : nat) (v x y z : Num) :
  length filled = n * 3 →
  set32 (set32 (set32 (filled ++ replicate (S m * 3) v) (n * 3) x) (n * 3 + 1) y)
    (n * 3 + 2) z
  = (filled ++ [fround x; fround y; fround z]) ++ replicate (m * 3) v.
Proof.
  intros Hlen. unfold set32.
  rewrite (insert_app_r_alt filled _ (n * 3)) by lia.
  rewrite (insert_app_r_alt filled _ (n * 3 + 1)) by lia.
  rewrite (insert_app_r_alt filled _ (n * 3 + 2)) by lia.
  rewrite Hlen.
  replace (n * 3 - n * 3) with 0 by lia.
  replace (n * 3 + 1 - n * 3) with 1 by lia.
  replace (n * 3 + 2 - n * 3) with 2 by lia.
  simpl. by rewrite <- app_assoc.
Qed.

Lemma map_table (f : Num → Num) (p : nat → Num * Num * Num) (n : nat) :
  map f (table p (S n)) = map f (table p n) ++ map f (triple (p n)).
Proof. by rewrite table_S, map_app. Qed.

(** The two typed arrays after [n] iterations: the slots of the first
    [n] particles hold the rounded graph points and colours, the others
    are still zero. *)
Lemma arrays_after (pCount c0 n : nat) :
  n ≤ pCount →
  let st := iterations random gold white pCount c0 n in
  positions st
  = map fround (table (λ i, graph_point random (c0 + 18 * i)) n)
    ++ replicate ((pCount - n) * 3) (lit 0)
  ∧ colors st
    = map fround (table (λ i, color_triple random gold white (c0 + 18 * i)) n)
      ++ replicate ((pCount - n) * 3) (lit 0).
Proof.
  cbv zeta. induction n as [|n IH]; intros Hn.
  - unfold iterations. simpl. by rewrite Nat.sub_0_r.
  - destruct (IH ltac:(lia)) as [IHp IHc]. clear IH.
    rewrite iterations_S.
    destruct (iterations_spec random gold white pCount c0 n) as (Hcalls & _).
    set (st := iterations random gold white pCount c0 n) in *.
    unfold particle. cbv zeta. rewrite Hcalls.
    destruct (graph_point random (c0 + 18 * n)) as [[x y] z] eqn:Hg.
    cbn [positions colors]. rewrite IHp, IHc.
    replace ((pCount - n) * 3) with (S (pCount - S n) * 3) by lia.
    rewrite !fill_slots by (rewrite length_map, length_table; lia).
    rewrite !map_table. cbv beta. rewrite Hg. done.
Qed.

(** X1. When [createParticles] returns, the position array holds the
    graph table rounded to single precision: every particle starts at
    its graph point. *)
Theorem initial_positions_are_graph (pCount : nat) :
  positions (createParticles random gold white pCount)
  = map fround (graph (targets (createParticles random gold white pCount))).
Proof.
  rewrite createParticles_targets. cbn [graph tables].
  destruct (arrays_after pCount 0 pCount ltac:(lia)) as [Hp _].
  unfold createParticles, createParticles_from. rewrite Hp.
  by rewrite Nat.sub_diag, app_nil_r.
Qed.

(** X2. When [createParticles] returns, the colour array has [3 N]
    entries, and the three slots of particle [i] hold the components of
    the gold colour if the fourth draw of iteration [i] is above 0.6 and
    those of white otherwise, rounded to single precision. *)
Theorem initial_colors_gold_or_white (pCount i : nat) :
  i < pCount →
  let colors := colors (createParticles random gold white pCount) in
  let color := if gtb (random (18 * i + 3)) (dec 6 1) then gold else white in
  length colors = pCount * 3
  ∧ colors !! (3 * i) = Some (fround (r color))
  ∧ colors !! (3 * i + 1) = Some (fround (g color))
  ∧ colors !! (3 * i + 2) = Some (fround (b color)).
Proof.
  intros Hi. cbv zeta.
  destruct (arrays_after pCount 0 pCount ltac:(lia)) as [_ Hc].
  unfold createParticles, createParticles_from. rewrite Hc.
  rewrite Nat.sub_diag, app_nil_r.
  split; [rewrite length_map, length_table; lia|].
  rewrite !list_lookup_fmap.
  rewrite <- (Nat.add_0_r (3 * i)) at 1.
  rewrite !table_lookup by lia.
  unfold color_triple, initial_color. cbv zeta. by cbn [triple].
Qed.

(** X4. For the same sequence of draws, the eight tables whose entries
    do not read the particle count (graph, orbit, matrix, threebody,
    neural, nash, lorenz, series) have the prefix property: their first
    [3 k] entries for [N] particles are the tables for [k] particles. *)
Theorem count_free_tables_prefix (k N : nat) :
  k ≤ N →
  let tN := targets (createParticles random gold white N) in
  let tk := targets (createParticles random gold white k) in
  take (3 * k) (graph tN) = graph tk ∧ take (3 * k) (orbit tN) = orbit tk
  ∧ take (3 * k) (matrix tN) = matrix tk
  ∧ take (3 * k) (threebody tN) = threebody tk
  ∧ take (3 * k) (neural tN) = neural tk ∧ take (3 * k) (nash tN) = nash tk
  ∧ take (3 * k) (lorenz tN) = lorenz tk ∧ take (3 * k) (series tN) = series tk.
Proof.
  intros Hk. cbv zeta. rewrite !createParticles_targets. unfold tables.
  cbn [graph orbit matrix threebody neural nash lorenz series].
  repeat split; by apply table_take.
Qed.

End GeneratorExtras.

Section GeneratorIndependence.
Context {Num : Type} `{JSNumber Num}.

(** X5. The five tables matrix, lorenz, golden, topology and calculus do
    not depend on what [Math.random] returns (nor on the two colours):
    they are the same on every mount with the same particle count. *)
Theorem index_only_tables_deterministic (random random' : nat → Num)
    (gold white gold' white' : Color Num) (N : nat) :
  let t := targets (createParticles random gold white N) in
  let t' := targets (createParticles random' gold' white' N) in
  matrix t = matrix t' ∧ lorenz t = lorenz t' ∧ golden t = golden t'
  ∧ topology t = topology t' ∧ calculus t = calculus t'.
Proof. cbv zeta. by rewrite !createParticles_targets. Qed.

End GeneratorIndependence.

(* ===================================================================== *)
(** * Further properties of the frame                                     *)
(* ===================================================================== *)

Section FrameExtras.
Context {Num : Type} `{JSNumber Num}.
Local Open Scope nat_scope.

Lemma target_static (mode : string) (t : Targets Num) (time : Num) (i : nat)
    (tbl : list Num) :
  mode ∈ static_modes → target_of t mode = Some tbl →
  target mode t time i = (get tbl (i * 3), get tbl (i * 3 + 1), get tbl (i * 3 + 2)).
Proof.
  unfold static_modes. rewrite !elem_of_cons, elem_of_nil.
  intros Hm Ht.
  repeat (destruct Hm as [->|Hm];
          [unfold target_of in Ht; simpl in Ht; inversion Ht; subst; reflexivity|]).
  done.
Qed.

(** A frame in a mode with a stored target, at one slot. *)
Lemma animate_static_lookup (mode : string) (inp : FrameInput) (sc : Scene)
    (tbl : list Num) (i k : nat) :
  mode ∈ static_modes → target_of (frame_targets inp) mode = Some tbl →
  i < particleCount inp → k < 3 → i * 3 + 2 < length (position_array sc) →
  position_array (animate mode inp sc) !! (i * 3 + k)
  = Some (fround (ease (get (position_array sc) (i * 3 + k)) (get tbl (i * 3 + k)))).
Proof.
  intros Hmode Htbl Hi Hk Hlen. rewrite animate_position_array.
  apply movement_lookup; [done..|].
  rewrite (target_static _ _ _ _ tbl) by done.
  destruct k as [|[|[|k]]]; [..|lia]; cbn [triple]; simpl; by rewrite ?Nat.add_0_r.
Qed.

(** X6. In the modes graph, neural, nash, lorenz, golden, topology,
    calculus and series a frame eases every coordinate of every particle
    towards the entry of the table of the mode at the same slot:
    [p] becomes [p + (t - p) * 0.04], rounded by the store. *)
Theorem static_mode_eases_to_table (mode : string) (inp : FrameInput) (sc : Scene)
    (tbl : list Num) (i k : nat) :
  mode ∈ static_modes → target_of (frame_targets inp) mode = Some tbl →
  i < particleCount inp → k < 3 → i * 3 + 2 < length (position_array sc) →
  position_array (animate mode inp sc) !! (i * 3 + k)
  = Some (fround (ease (get (position_array sc) (i * 3 + k)) (get tbl (i * 3 + k)))).
Proof. apply animate_static_lookup. Qed.

Lemma movement_length (mode : string) (t : Targets Num) (time : Num) (count : nat)
    (a : list Num) :
  length (movement mode t time count a) = length a.
Proof. unfold movement. apply slot_loop_length. intros. apply move_length. Qed.

Lemma movement_beyond (mode : string) (t : Targets Num) (time : Num) (count : nat)
    (a : list Num) (j : nat) :
  count * 3 ≤ j → movement mode t time count a !! j = a !! j.
Proof.
  intros Hj. unfold movement. apply slot_loop_ge; [|done].
  intros. by apply move_other.
Qed.

Lemma neural_pulse_length (time : Num) (count : nat) (positions colors : list Num) :
  length (neural_pulse time count positions colors) = length colors.
Proof.
  unfold neural_pulse. cbv zeta.
  apply (slot_loop_length (λ colors i, pulse (wavePos time) positions colors i)).
  intros. apply pulse_length.
Qed.

Lemma neural_pulse_beyond (time : Num) (count : nat) (positions colors : list Num)
    (j : nat) :
  count * 3 ≤ j → neural_pulse time count positions colors !! j = colors !! j.
Proof.
  intros Hj. unfold neural_pulse. cbv zeta.
  apply (slot_loop_ge (λ colors i, pulse (wavePos time) positions colors i)); [|done].
  intros. by apply pulse_other.
Qed.

(** X7. A frame never resizes the two typed arrays, whatever the mode,
    and it leaves every slot beyond those of the first [particleCount]
    particles as it was. *)
Theorem frame_keeps_array_shape (mode : string) (inp : FrameInput) (sc : Scene) :
  length (position_array (animate mode inp sc)) = length (position_array sc)
  ∧ length (color_array (animate mode inp sc)) = length (color_array sc)
  ∧ ∀ j, particleCount inp * 3 ≤ j →
      position_array (animate mode inp sc) !! j = position_array sc !! j
      ∧ color_array (animate mode inp sc) !! j = color_array sc !! j.
Proof.
  rewrite animate_position_array, animate_color_array. split; [|split].
  - apply movement_length.
  - destruct (String.eqb mode "neural"); [apply neural_pulse_length|done].
  - intros j Hj. split; [by apply movement_beyond|].
    destruct (String.eqb mode "neural"); [by apply neural_pulse_beyond|done].
Qed.

Lemma animate_rotations (mode : string) (inp : FrameInput) (sc : Scene) :
  (particles_rotation (animate mode inp sc), lines_rotation (animate mode inp sc))
  = rotations mode (mul (now inp) (dec 1 3)).
Proof.
  unfold animate. destruct (camera_position sc) as [[cx cy] cz].
  destruct (rotations mode _) as [prot lrot].
  unfold updateLines. by destruct (lines_hidden mode).
Qed.

Lemma animate_lines_visible (mode : string) (inp : FrameInput) (sc : Scene) :
  lines_visible (animate mode inp sc) = negb (lines_hidden mode).
Proof.
  unfold animate. destruct (camera_position sc) as [[cx cy] cz].
  destruct (rotations mode _) as [prot lrot].
  unfold updateLines. by destruct (lines_hidden mode).
Qed.

(** X8. In each of the twelve modes, whenever a frame leaves the line
    mesh visible it leaves it with the rotation of the particles, so the
    segments stay on the particles they join. *)
Theorem visible_lines_turn_with_particles (mode : string) (inp : FrameInput)
    (sc : Scene) :
  mode ∈ modes → lines_visible (animate mode inp sc) = true →
  lines_rotation (animate mode inp sc) = particles_rotation (animate mode inp sc).
Proof.
  intros Hmode Hvis. rewrite animate_lines_visible in Hvis.
  pose proof (animate_rotations mode inp sc) as Hrot.
  unfold modes in Hmode. rewrite !elem_of_cons, elem_of_nil in Hmode.
  repeat (destruct Hmode as [->|Hmode];
          [first [ discriminate Hvis
                 | unfold rotations in Hrot; simpl in Hrot; by inversion Hrot ]|]).
  done.
Qed.

Lemma length_emitted (mode : string) (positions : list Num) (p : nat * nat) :
  length (emitted mode positions p) = 0 ∨ length (emitted mode positions p) = 6.
Proof. unfold emitted. destruct (ltb _ _); [by right|by left]. Qed.

Lemma length_flat_map_emitted (mode : string) (positions : list Num)
    (pairs : list (nat * nat)) :
  ∃ n, n ≤ length pairs
       ∧ length (flat_map (emitted mode positions) pairs) = 6 * n.
Proof.
  induction pairs as [|p pairs (n & Hn & IH)]; [by exists 0|].
  simpl. rewrite length_app, IH.
  destruct (length_emitted mode positions p) as [-> | ->].
  - exists n. lia.
  - exists (S n). lia.
Qed.

Lemma length_scanned_pairs (step checkLimit limit : nat) :
  length (scanned_pairs step checkLimit limit) ≤ limit * (checkLimit - 1).
Proof.
  unfold scanned_pairs.
  assert (Hrow : ∀ l : list nat,
    length (flat_map
      (λ i, map (λ j, (i, j)) (seq (i + 1) (Nat.min (i + checkLimit) limit - (i + 1)))) l)
    ≤ length l * (checkLimit - 1)).
  { induction l as [|i l IH]; [done|].
    simpl. rewrite length_app, length_map, length_seq. lia. }
  etrans; [apply Hrow|].
  apply Nat.mul_le_mono_r.
  etrans; [apply length_filter|]. by rewrite length_seq.
Qed.

(** X9. The position attribute that [updateLines] builds is made of
    whole segments, six numbers each, and there are at most
    [particleCount * (checkLimit - 1)] of them (39 per particle, 14 on a
    small viewport). *)
Theorem rebuilt_lines_are_whole_segments (mode : string) (inp : FrameInput)
    (sc : Scene) :
  lines_hidden mode = false →
  ∃ n, length (lines_position (updateLines mode inp sc)) = 6 * n
       ∧ n ≤ particleCount inp * (if isMobile inp then 14 else 39).
Proof.
  intros Hh. unfold updateLines. rewrite Hh. cbn [lines_position].
  rewrite length_map, linePositions_of_spec.
  destruct (length_flat_map_emitted mode (position_array sc)
              (scanned_pairs (step_of (isMobile inp)) (checkLimit_of (isMobile inp))
                 (particleCount inp))) as (n & Hn & Hlen).
  exists n. split; [done|].
  etrans; [exact Hn|]. etrans; [apply length_scanned_pairs|].
  by destruct (isMobile inp).
Qed.

End FrameExtras.


(* ===================================================================== *)
(** * Further properties of the mode switcher                             *)
(* ===================================================================== *)

Module SwitcherExtras.
Import Switcher SwitcherFacts.
Local Open Scope N_scope.

(** The flag after a batch of callbacks. *)
Lemma run_callbacks_flag (l : list (N * string)) (q : Page) :
  isUpdatingInsight (fold_left (λ q c, swap_insight c.2 q) l q)
  = match l with [] => isUpdatingInsight q | _ => false end.
Proof.
  induction l as [|c l IH] using rev_ind; [done|].
  rewrite fold_left_app. simpl. by destruct l.
Qed.

Lemma flag_elapse (d : N) (p : Page) :
  isUpdatingInsight (elapse d p)
  = match filter (λ c, c.1 <= clock p + d) (pending p) with
    | [] => isUpdatingInsight p
    | _ => false
    end.
Proof. unfold elapse. cbv zeta. by rewrite run_callbacks_flag. Qed.

(** X17. On every page that clicks on the buttons can produce, the
    insight is a description of the table (so that its title and text
    can be rendered) and the current mode is one of the twelve. *)
Theorem clicked_pages_have_an_insight (p : Page) :
  clicked p → (∃ d, insight p = own d) ∧ vizMode p ∈ modes.
Proof.
  intros Hp. destruct (clicked_described p Hp) as (Hi & Hv & _). done.
Qed.

(** X18. On every reachable page the mode that the frames read
    ([configRef.current.mode]) is the mode that the buttons highlight
    (the state variable [vizMode]). *)
Theorem frame_mode_is_highlighted_mode (p : Page) :
  reachable p → config_mode p = vizMode p.
Proof. intros Hp. by destruct (reachable_invariant p Hp) as (_ & Hc & _). Qed.

Lemma reachable_sorted (p : Page) : reachable p → due_sorted (pending p).
Proof.
  intros Hp.
  assert (Hinv : due_sorted (pending p) ∧ Forall (λ c, c.1 <= clock p + 500) (pending p)).
  { induction Hp as [|mode p _ (Hs & Hb)|d p _ (Hs & Hb)].
    - split; [done|constructor].
    - split.
      + simpl. induction (pending p) as [|c l IH].
        * simpl. split; [constructor|done].
        * simpl. destruct Hs as [Hall Hs]. apply Forall_cons in Hb as [Hc1 Hb].
          split; [|by apply IH].
          apply Forall_app. split; [done|]. by apply Forall_singleton.
      + simpl. apply Forall_app. split; [done|]. by apply Forall_singleton.
    - destruct (fields_elapse d p) as (_ & _ & Hk & Hp').
      rewrite Hk, Hp'. split.
      + clear Hb Hp' Hk. revert Hs. generalize (pending p) as l.
        induction l as [|c l IH]; [done|]. intros [Hall Hs].
        destruct (decide (¬ c.1 <= clock p + d)) as [Hc|Hc].
        * rewrite filter_cons_True by done. simpl. split; [|by apply IH].
          apply Forall_forall. intros c' Hin.
          apply list_elem_of_filter in Hin as [_ Hin].
          rewrite Forall_forall in Hall. by apply Hall.
        * rewrite filter_cons_False by done. by apply IH.
      + apply Forall_forall. intros c Hin.
        apply list_elem_of_filter in Hin as [_ Hin].
        rewrite Forall_forall in Hb. specialize (Hb c Hin). lia. }
  tauto.
Qed.

(** In a list sorted by due time, the callbacks due by [t2] are those
    due by [t1 <= t2], then those of the others that are due by [t2]. *)
Lemma due_split (l : list (N * string)) (t1 t2 : N) :
  due_sorted l → t1 <= t2 →
  filter (λ c, c.1 <= t2) l
  = filter (λ c, c.1 <= t1) l
    ++ filter (λ c, c.1 <= t2) (filter (λ c, ¬ c.1 <= t1) l).
Proof.
  intros Hs Ht. induction l as [|c l IH]; [done|].
  destruct Hs as [Hall Hs]. specialize (IH Hs).
  destruct (decide (c.1 <= t1)) as [Hc|Hc].
  - rewrite (filter_cons_True (λ c, c.1 <= t2)) by (simpl; lia).
    rewrite (filter_cons_True (λ c, c.1 <= t1)) by done.
    rewrite (filter_cons_False (λ c, ¬ c.1 <= t1)) by (simpl; tauto).
    simpl. by rewrite IH.
  - assert (Hnone : Forall (λ c', ¬ c'.1 <= t1) (c :: l)).
    { constructor; [done|]. eapply Forall_impl; [exact Hall|]. simpl. intros c' Hc'. lia. }
    rewrite (filter_none (λ c, c.1 <= t1)) by done.
    by rewrite (filter_all (λ c, ¬ c.1 <= t1)) by done.
Qed.

Lemma page_eq (p q : Page) :
  vizMode p = vizMode q → insight p = insight q →
  isUpdatingInsight p = isUpdatingInsight q → config_mode p = config_mode q →
  clock p = clock q → pending p = pending q → p = q.
Proof. destruct p, q. simpl. by intros -> -> -> -> -> ->. Qed.

(** X19. On a reachable page the passing of time composes: letting
    [d1] and then [d2] milliseconds pass leaves the same page as
    letting [d1 + d2] pass at once. *)
Theorem elapse_composes (p : Page) (d1 d2 : N) :
  reachable p → elapse d2 (elapse d1 p) = elapse (d1 + d2) p.
Proof.
  intros Hp. apply reachable_sorted in Hp.
  destruct (fields_elapse d1 p) as (Hv1 & Hc1 & Hk1 & Hp1).
  destruct (fields_elapse d2 (elapse d1 p)) as (Hv2 & Hc2 & Hk2 & Hp2).
  destruct (fields_elapse (d1 + d2) p) as (Hv & Hc & Hk & Hpd).
  pose proof (due_split (pending p) (clock p + d1) (clock p + (d1 + d2)) Hp ltac:(lia))
    as Hsplit.
  apply page_eq.
  - congruence.
  - rewrite !insight_elapse, Hk1, Hp1.
    replace (clock p + d1 + d2) with (clock p + (d1 + d2)) by lia.
    rewrite Hsplit.
    destruct (filter (λ c, c.1 <= clock p + (d1 + d2))
                (filter (λ c, ¬ c.1 <= clock p + d1) (pending p)))
      as [|c l] using rev_ind.
    + by rewrite app_nil_r.
    + by rewrite app_assoc, !last_snoc.
  - rewrite !flag_elapse, Hk1, Hp1.
    replace (clock p + d1 + d2) with (clock p + (d1 + d2)) by lia.
    rewrite Hsplit.
    destruct (filter (λ c, c.1 <= clock p + d1) (pending p)) as [|c l]; [done|].
    simpl. by destruct (filter _ (filter _ _)).
  - congruence.
  - rewrite Hk2, Hk1, Hk. lia.
  - rewrite Hp2, Hp1, Hk1, Hpd.
    replace (clock p + d1 + d2) with (clock p + (d1 + d2)) by lia.
    rewrite list_filter_filter. apply list_filter_iff. intros c. simpl. lia.
Qed.

(** X20. With no switch waiting for its delay the fade flag is down; a
    switch raises it, and it stays up exactly until the 500 ms of the
    delay have passed. *)
Theorem insight_hidden_during_delay (p : Page) (m : string) (d : N) :
  reachable p → pending p = [] →
  isUpdatingInsight p = false
  ∧ isUpdatingInsight (elapse d (changeVizMode m p)) = bool_decide (d < 500).
Proof.
  intros Hp Hnil. split.
  - clear m d. induction Hp as [|mode p _ IH|d p Hp IH]; [done| |].
    + simpl in Hnil. by destruct (pending p).
    + destruct (fields_elapse d p) as (_ & _ & _ & Hrest).
      rewrite Hrest in Hnil. rewrite flag_elapse.
      destruct (filter (λ c, c.1 <= clock p + d) (pending p)) as [|c l] eqn:Hdue; [|done].
      apply IH.
      destruct (pending p) as [|c l]; [done|]. exfalso.
      destruct (decide (c.1 <= clock p + d)) as [Hc|Hc].
      * by rewrite filter_cons_True in Hdue.
      * by rewrite filter_cons_True in Hnil.
  - rewrite flag_elapse. simpl. rewrite Hnil. simpl.
    destruct (decide (clock p + 500 <= clock p + d)) as [Hc|Hc].
    + rewrite filter_cons_True by done. rewrite bool_decide_eq_false_2 by lia. done.
    + rewrite filter_cons_False by done. rewrite bool_decide_eq_true_2 by lia. done.
Qed.

(** X22. Two switches less than 500 ms apart: once the delay of the
    first has passed and that of the second has not, the overlay is
    shown again (the fade flag is down) with the description of the
    first mode, while the current mode is the second; the description
    of the second mode follows when its own delay has passed. *)
Theorem overlapping_switches_show_first_insight (p : Page) (m1 m2 : string)
    (d1 d2 : N) :
  pending p = [] → d1 < 500 → d2 < 500 → 500 <= d1 + d2 →
  let q := elapse d2 (changeVizMode m2 (elapse d1 (changeVizMode m1 p))) in
  vizMode q = m2 ∧ config_mode q = m2
  ∧ isUpdatingInsight q = false ∧ insight q = get_member VIZ_DESCRIPTIONS m1
  ∧ ∀ d3, 500 <= d2 + d3 →
      isUpdatingInsight (elapse d3 q) = false
      ∧ insight (elapse d3 q) = get_member VIZ_DESCRIPTIONS m2.
Proof.
  intros Hnil Hd1 Hd2 Hsum. cbv zeta.
  set (p1 := elapse d1 (changeVizMode m1 p)).
  assert (Hp1 : clock p1 = clock p + d1 ∧ pending p1 = [(clock p + 500, m1)]).
  { destruct (fields_elapse d1 (changeVizMode m1 p)) as (_ & _ & Hk & Hp).
    split; [exact Hk|]. unfold p1. rewrite Hp. simpl. rewrite Hnil. simpl.
    rewrite filter_cons_True by (simpl; lia). done. }
  destruct Hp1 as [Hk1 Hpend1].
  set (p2 := changeVizMode m2 p1).
  assert (Hpend2 : pending p2 = [(clock p + 500, m1); (clock p + d1 + 500, m2)]).
  { unfold p2. simpl. by rewrite Hpend1, Hk1. }
  assert (Hk2 : clock p2 = clock p + d1) by done.
  destruct (fields_elapse d2 p2) as (Hv & Hc & Hk & Hp).
  assert (Hdue : filter (λ c : N * string, c.1 <= clock p2 + d2) (pending p2)
                 = [(clock p + 500, m1)]).
  { rewrite Hpend2, Hk2. rewrite filter_cons_True by (simpl; lia).
    rewrite filter_cons_False by (simpl; lia). done. }
  assert (Hrest : pending (elapse d2 p2) = [(clock p + d1 + 500, m2)]).
  { rewrite Hp, Hpend2, Hk2. rewrite filter_cons_False by (simpl; lia).
    rewrite filter_cons_True by (simpl; lia). done. }
  split; [by rewrite Hv|]. split; [by rewrite Hc|].
  split; [by rewrite flag_elapse, Hdue|].
  split; [by rewrite insight_elapse, Hdue|].
  intros d3 Hd3.
  assert (Hdue3 : filter (λ c : N * string, c.1 <= clock (elapse d2 p2) + d3)
                    (pending (elapse d2 p2)) = [(clock p + d1 + 500, m2)]).
  { rewrite Hrest, Hk, Hk2. rewrite filter_cons_True by (simpl; lia). done. }
  split; [by rewrite flag_elapse, Hdue3|by rewrite insight_elapse, Hdue3].
Qed.

End SwitcherExtras.

(* ===================================================================== *)
(** * Easing in double precision                                          *)
(* ===================================================================== *)

Module IEEEExtras.
Import IEEE.

Section Engine.
Variables host_cos host_sin host_acos host_exp : binary64 → binary64.
Variable host_pow : binary64 → binary64 → binary64.

#[local] Hint Extern 0 (JSNumber binary64) =>
  exact (number host_cos host_sin host_acos host_exp host_pow) : typeclass_instances.

(** Easing a finite double other than [-0] towards itself gives it
    back: the difference is [+0], and so is its product by 0.04. *)
Lemma ease_fixed (p : binary64) :
  is_finite p = true → p ≠ S754_zero true → ease p p = p.
Proof.
  intros Hfin Hneg. unfold ease. cbn [add sub mul dec number].
  assert (Hsub : SFsub prec emax p p = S754_zero false).
  { destruct p as [[|]| | |s m e]; try done.
    unfold SFsub. rewrite Z.min_id, Z.sub_diag.
    unfold binary_normalize. by destruct s. }
  rewrite Hsub.
  replace (SFmul prec emax (S754_zero false) (of_decimal 4 2)) with (S754_zero false)
    by (vm_compute; reflexivity).
  by destruct p as [[|]| | |s m e].
Qed.

(** X21. No drift at rest: in double precision, in a mode with a stored
    target, a coordinate that holds the finite single-precision value
    of its target (other than [-0]) is left as it is by a frame. *)
Theorem particle_at_target_stays (mode : string) (inp : FrameInput) (sc : Scene)
    (tbl : list binary64) (i k : nat) (p : binary64) :
  mode ∈ static_modes → target_of (frame_targets inp) mode = Some tbl →
  (i < particleCount inp)%nat → (k < 3)%nat →
  (i * 3 + 2 < length (position_array sc))%nat →
  position_array sc !! (i * 3 + k)%nat = Some p → tbl !! (i * 3 + k)%nat = Some p →
  is_finite p = true → p ≠ S754_zero true → to_float32 p = p →
  position_array (animate mode inp sc) !! (i * 3 + k)%nat = Some p.
Proof.
  intros Hmode Htbl Hi Hk Hlen Hpos Htgt Hfin Hneg Hsingle.
  rewrite (animate_static_lookup mode inp sc tbl i k) by done.
  unfold get. rewrite Hpos, Htgt. simpl default.
  rewrite ease_fixed by done. f_equal. exact Hsingle.
Qed.

End Engine.
End IEEEExtras.

(* ===================================================================== *)
(** * The further properties on concrete data                             *)
(* ===================================================================== *)

Module ExtraInstances.
Import IEEE.

Lemma initial_colors_gold_or_white_witness :
  let colors :=
    colors (createParticles (H := flat_number) (λ _, of_Z 0)
              {| r := of_Z 1; g := of_Z 0; b := of_Z 0 |}
              {| r := of_Z 1; g := of_Z 1; b := of_Z 1 |} 2) in
  let color :=
    if gtb (JSNumber := flat_number) ((λ _ : nat, of_Z 0) (18 * 1 + 3)%nat)
         (of_decimal 6 1)
    then {| r := of_Z 1; g := of_Z 0; b := of_Z 0 |}
    else {| r := of_Z 1; g := of_Z 1; b := of_Z 1 |} in
  length colors = (2 * 3)%nat
  ∧ colors !! (3 * 1)%nat = Some (to_float32 (r color))
  ∧ colors !! (3 * 1 + 1)%nat = Some (to_float32 (g color))
  ∧ colors !! (3 * 1 + 2)%nat = Some (to_float32 (b color)).
Proof.
  apply (initial_colors_gold_or_white (H := flat_number) (λ _, of_Z 0)
           {| r := of_Z 1; g := of_Z 0; b := of_Z 0 |}
           {| r := of_Z 1; g := of_Z 1; b := of_Z 1 |} 2 1).
  lia.
Defined.

Lemma count_free_tables_prefix_witness :
  let tN := targets (createParticles (H := flat_number) (λ _, of_Z 0)
                       {| r := of_Z 1; g := of_Z 0; b := of_Z 0 |}
                       {| r := of_Z 1; g := of_Z 1; b := of_Z 1 |} 2) in
  let tk := targets (createParticles (H := flat_number) (λ _, of_Z 0)
                       {| r := of_Z 1; g := of_Z 0; b := of_Z 0 |}
                       {| r := of_Z 1; g := of_Z 1; b := of_Z 1 |} 1) in
  take (3 * 1) (graph tN) = graph tk ∧ take (3 * 1) (orbit tN) = orbit tk
  ∧ take (3 * 1) (matrix tN) = matrix tk
  ∧ take (3 * 1) (threebody tN) = threebody tk
  ∧ take (3 * 1) (neural tN) = neural tk ∧ take (3 * 1) (nash tN) = nash tk
  ∧ take (3 * 1) (lorenz tN) = lorenz tk ∧ take (3 * 1) (series tN) = series tk.
Proof.
  apply (count_free_tables_prefix (H := flat_number) (λ _, of_Z 0)
           {| r := of_Z 1; g := of_Z 0; b := of_Z 0 |}
           {| r := of_Z 1; g := of_Z 1; b := of_Z 1 |} 1 2).
  lia.
Defined.

Lemma static_mode_eases_to_table_witness :
  let inp := one_frame (H := flat_number) in
  let sc := one_particle (H := flat_number) in
  position_array (animate (H := flat_number) "graph" inp sc) !! (0 * 3 + 1)%nat
  = Some (to_float32
            (ease (H := flat_number)
               (get (H := flat_number) (position_array sc) (0 * 3 + 1))
               (get (H := flat_number) [of_Z 1; of_Z 5; of_Z 3] (0 * 3 + 1)))).
Proof.
  cbv zeta.
  apply (static_mode_eases_to_table (H := flat_number) "graph"
           (one_frame (H := flat_number)) (one_particle (H := flat_number))
           [of_Z 1; of_Z 5; of_Z 3] 0 1).
  - unfold static_modes. apply list_elem_of_here.
  - reflexivity.
  - simpl. lia.
  - lia.
  - simpl. lia.
Defined.

Lemma visible_lines_turn_with_particles_witness :
  let inp := one_frame (H := flat_number) in
  let sc := one_particle (H := flat_number) in
  lines_rotation (animate (H := flat_number) "graph" inp sc)
  = particles_rotation (animate (H := flat_number) "graph" inp sc).
Proof.
  cbv zeta.
  apply (visible_lines_turn_with_particles (H := flat_number) "graph"
           (one_frame (H := flat_number)) (one_particle (H := flat_number))).
  - unfold modes. apply list_elem_of_here.
  - reflexivity.
Defined.

Lemma rebuilt_lines_are_whole_segments_witness :
  let inp := one_frame (H := flat_number) in
  let sc := one_particle (H := flat_number) in
  ∃ n : nat,
    length (lines_position (updateLines (H := flat_number) "graph" inp sc))
    = (6 * n)%nat
    ∧ (n ≤ particleCount inp * (if isMobile inp then 14 else 39))%nat.
Proof.
  cbv zeta.
  apply (rebuilt_lines_are_whole_segments (H := flat_number) "graph"
           (one_frame (H := flat_number)) (one_particle (H := flat_number))).
  reflexivity.
Defined.

Lemma particle_at_target_stays_witness :
  let inp := one_frame (H := flat_number) in
  let sc := one_particle (H := flat_number) in
  position_array (animate (H := flat_number) "graph" inp sc) !! (0 * 3 + 0)%nat
  = Some (of_Z 1).
Proof.
  cbv zeta.
  apply (IEEEExtras.particle_at_target_stays flat_cos flat_sin flat_acos flat_exp
           flat_pow "graph" (one_frame (H := flat_number))
           (one_particle (H := flat_number)) [of_Z 1; of_Z 5; of_Z 3] 0 0 (of_Z 1)).
  - unfold static_modes. apply list_elem_of_here.
  - reflexivity.
  - simpl. lia.
  - lia.
  - simpl. lia.
  - reflexivity.
  - reflexivity.
  - reflexivity.
  - discriminate.
  - vm_compute. reflexivity.
Defined.

End ExtraInstances.

Module SwitcherInstances.
Import Switcher SwitcherExtras.
Local Open Scope N_scope.

Lemma clicked_pages_have_an_insight_witness :
  (∃ d, insight (elapse 600 (changeVizMode "nash" mount)) = own d)
  ∧ vizMode (elapse 600 (changeVizMode "nash" mount)) ∈ modes.
Proof.
  apply (clicked_pages_have_an_insight (elapse 600 (changeVizMode "nash" mount))).
  apply clicked_elapse. apply clicked_button; [|apply clicked_mount].
  unfold buttons, foundation_console, map_tiles, foundation_cards, domain_buttons.
  simpl. repeat (first [apply list_elem_of_here | apply list_elem_of_further]).
Defined.

Lemma frame_mode_is_highlighted_mode_witness :
  config_mode (elapse 100 (changeVizMode "quant" mount))
  = vizMode (elapse 100 (changeVizMode "quant" mount)).
Proof.
  apply (frame_mode_is_highlighted_mode (elapse 100 (changeVizMode "quant" mount))).
  apply reach_elapse, reach_switch, reach_mount.
Defined.

Lemma elapse_composes_witness :
  elapse 300 (elapse 400 (changeVizMode "orbit" (elapse 200 (changeVizMode "nash" mount))))
  = elapse (400 + 300) (changeVizMode "orbit" (elapse 200 (changeVizMode "nash" mount))).
Proof.
  apply (elapse_composes (changeVizMode "orbit" (elapse 200 (changeVizMode "nash" mount)))
           400 300).
  apply reach_switch, reach_elapse, reach_switch, reach_mount.
Defined.

Lemma insight_hidden_during_delay_witness :
  isUpdatingInsight mount = false
  ∧ isUpdatingInsight (elapse 499 (changeVizMode "nash" mount)) = bool_decide (499 < 500).
Proof.
  apply (insight_hidden_during_delay mount "nash" 499).
  - apply reach_mount.
  - reflexivity.
Defined.

Lemma overlapping_switches_show_first_insight_witness :
  let q := elapse 300 (changeVizMode "orbit" (elapse 400 (changeVizMode "nash" mount))) in
  vizMode q = "orbit" ∧ config_mode q = "orbit"
  ∧ isUpdatingInsight q = false ∧ insight q = get_member VIZ_DESCRIPTIONS "nash"
  ∧ ∀ d3, 500 <= 300 + d3 →
      isUpdatingInsight (elapse d3 q) = false
      ∧ insight (elapse d3 q) = get_member VIZ_DESCRIPTIONS "orbit".
Proof.
  apply (overlapping_switches_show_first_insight mount "nash" "orbit" 400 300).
  - reflexivity.
  - lia.
  - lia.
  - lia.
Defined.

End SwitcherInstances.
